(** * gwmemory.utils: a shallow embedding and its specification

    The module [src/gwmemory/utils.py] is a flat collection of numeric
    helpers.  Python integers are modelled by [Z], numpy one-dimensional
    arrays by lists, dictionaries by stdpp's [gmap], and Python exceptions by
    an explicit [result] type.

    Floats are read in two ways.  The exact reading takes them for the real
    numbers [R] of the Standard Library (no rounding, no NaN, no infinities);
    it carries the algebraic laws, which hold in exact arithmetic only.  The
    binary64 reading takes them for the primitive floats of the Standard
    Library (IEEE 754 double precision, round to nearest even), with NaN,
    infinities and the exceptions Python raises on them; it is given for
    [planck] and for [m12_to_symratio], where the two readings part: a
    product that overflows, a taper value that rounds to exactly [0.0] or
    [1.0], a half-width taken from a rounded product, a symmetric mass
    ratio that rounds above one quarter.  Definitions of the binary64
    reading carry the suffix [64]. *)

From Stdlib Require Import Floats.
From Stdlib Require Import Reals Lra Lia ZArith.
From stdpp Require Import base list gmap strings pretty.
From Stdlib Require Import Ascii.

Set Warnings "-inexact-float".

Open Scope Z_scope.

(** ** Exceptions and the error monad *)

(** The Python exception classes that the modelled code can raise.
    [ComplexResult] is not a Python exception: it marks a value the
    real-number model does not represent (a negative base raised to a
    fractional power is a complex number in Python). *)
Inductive exn : Type :=
  | TypeError
  | ValueError
  | KeyError (key : string)
  | IndexError
  | ZeroDivisionError
  | OverflowError
  | UnboundLocalError (name : string)
  | FileNotFoundError
  | PermissionError
  | IsADirectoryError
  | OSError
  | UnicodeDecodeError
  | ComplexResult.

(** The outcome of evaluating a Python expression or running a function
    body: a value, or a raised exception. *)
Inductive result (A : Type) : Type :=
  | Ok (a : A)
  | Raise (e : exn).
Arguments Ok {A} a.
Arguments Raise {A} e.

Definition bind {A B : Type} (m : result A) (k : A -> result B) : result B :=
  match m with
  | Ok a => k a
  | Raise e => Raise e
  end.

Notation "x <- m ;; k" := (bind m (fun x => k))
  (at level 100, m at next level, right associativity).

(** A Python [for] loop whose body may raise: the state is threaded through
    the iterations and the first exception aborts the loop. *)
Fixpoint for_each {A S : Type} (xs : list A) (body : A -> S -> result S)
    (s : S) : result S :=
  match xs with
  | [] => Ok s
  | x :: xs' => s' <- body x s ;; for_each xs' body s'
  end.

(** ** Builtin and numpy primitives used by the module *)

(** [np.floor]: the largest integer not above [x], still a float. *)
Definition np_floor (x : R) : R := IZR (Int_part x).

(** [int(x)] on a float: truncation toward zero. *)
Definition py_int (x : R) : Z :=
  if Rle_dec 0 x then Int_part x else - Int_part (- x).

(** [x / y] on Python floats: a zero divisor raises. *)
Definition py_div (x y : R) : result R :=
  if Req_dec_T y 0 then Raise ZeroDivisionError else Ok (x / y)%R.

(** [x ** y] on Python floats with a float exponent.  A positive base is
    [exp (y * ln x)]; a zero base gives [0.0] for a positive exponent, [1.0]
    for a zero exponent and raises for a negative one.  For a negative base
    Python returns a complex number and goes on; the model has no complex
    powers and stops there with the marker [ComplexResult]. *)
Definition py_pow (x y : R) : result R :=
  if Rlt_dec 0 x then Ok (Rpower x y)
  else if Req_dec_T x 0 then
    if Rlt_dec 0 y then Ok 0%R
    else if Req_dec_T y 0 then Ok 1%R
    else Raise ZeroDivisionError
  else Raise ComplexResult.

(** [np.arange(a, b)] on integers: [a, a+1, ..., b-1], empty when [b <= a]. *)
Definition np_arange (a b : Z) : list Z := seqZ a (b - a).

(** [range(a, b)]. *)
Definition py_range (a b : Z) : list Z := seqZ a (b - a).

(** [np.ones(n)]: numpy rejects a negative dimension with [ValueError]. *)
Definition np_ones (n : Z) : result (list R) :=
  if decide (n < 0) then Raise ValueError
  else Ok (replicate (Z.to_nat n) 1%R).

(** [np.append(a, x)] on a one-dimensional array. *)
Definition np_append (a : list R) (x : R) : list R := a ++ [x].

(** [np.linspace(start, stop, num)]: [num] evenly spaced samples with both
    end points included; a single sample is [start]; a negative [num] raises. *)
Definition np_linspace (start stop : R) (num : Z) : result (list R) :=
  if decide (num < 0) then Raise ValueError
  else if decide (num = 1) then Ok [start]
  else
    let step := ((stop - start) / IZR (num - 1))%R in
    Ok ((fun i => (start + IZR i * step)%R) <$> np_arange 0 num).

(** Complex numbers as pairs (real part, imaginary part). *)
Definition complex : Type := R * R.

Definition Cadd (a b : complex) : complex := (a.1 + b.1, a.2 + b.2)%R.
Definition Cmul (a b : complex) : complex :=
  (a.1 * b.1 - a.2 * b.2, a.1 * b.2 + a.2 * b.1)%R.
Definition C_of_R (x : R) : complex := (x, 0%R).
(** The literal [1j]. *)
Definition Cj : complex := (0%R, 1%R).
(** A complex value divided by a float. *)
Definition Cdiv_R (a : complex) (x : R) : complex := (a.1 / x, a.2 / x)%R.
Definition Csum (l : list complex) : complex := foldr Cadd (C_of_R 0) l.

(** [exp(-2 pi i j k / n)]. *)
Definition twiddle (n k j : nat) : complex :=
  (cos (2 * PI * INR j * INR k / INR n),
   - sin (2 * PI * INR j * INR k / INR n))%R.

(** The [k]-th coefficient of the discrete Fourier transform of [x]. *)
Definition dft_coeff (x : list R) (k : nat) : complex :=
  Csum (imap (fun j xj => Cmul (C_of_R xj) (twiddle (length x) k j)) x).

(** The real-input discrete Fourier transform: the coefficients at the
    non-negative frequencies [0 .. n/2]. *)
Definition real_dft (x : list R) : list complex :=
  dft_coeff x <$> seq 0 (length x `div` 2 + 1)%nat.

(** [np.fft.rfft], an external primitive, by its documented behaviour: the
    one-sided transform of a real series; an empty series is rejected
    ("Invalid number of FFT data points (0) specified"). *)
Definition np_fft_rfft (x : list R) : result (list complex) :=
  if decide (length x < 1)%nat then Raise ValueError
  else Ok (real_dft x).

(** ** Mass-parameter conversions (utils.py, lines 20-40) *)

(** The exact reading: masses are real numbers and no operation rounds.
    The binary64 reading of line 27 is [m12_to_symratio64] below. *)

Definition m12_to_mc (m1 m2 : R) : result R :=
  a <- py_pow (m1 * m2) (3 / 5) ;;
  b <- py_pow (m1 + m2) (1 / 5) ;;
  py_div a b.

(** The exponent [2] is an integer literal: [x ** 2] is [x * x]. *)
Definition m12_to_symratio (m1 m2 : R) : result R :=
  py_div (m1 * m2) ((m1 + m2) ^ 2).

(** [0.6] is [3/5] and [0.5] is [1/2]. *)
Definition mc_eta_to_m12 (mc eta : R) : result (R * R) :=
  m1 <- (p <- py_pow eta (3 / 5) ;;
         q <- py_div mc p ;;
         r <- py_pow (1 - 4 * eta) (1 / 2) ;;
         Ok (q * (1 + r) / 2)%R) ;;
  m2 <- (p <- py_pow eta (3 / 5) ;;
         q <- py_div mc p ;;
         r <- py_pow (1 - 4 * eta) (1 / 2) ;;
         Ok (q * (1 - r) / 2)%R) ;;
  Ok (m1, m2).

(** ** [nfft] (utils.py, lines 78-105) *)

(** The series after the padding step: one zero appended to an odd length. *)
Definition nfft_pad (ht : list R) : list R :=
  if decide (Z.of_nat (length ht) mod 2 = 1) then np_append ht 0 else ht.

(** The frequency grid for a (padded) length [LL]:
    [sampling_frequency / 2 * np.linspace(0, 1, int(LL / 2 + 1))]. *)
Definition nfft_ff (LL : Z) (sampling_frequency : R) : result (list R) :=
  grid <- np_linspace 0 1 (py_int (IZR LL / 2 + 1)) ;;
  Ok ((fun x => (sampling_frequency / 2 * x)%R) <$> grid).

Definition nfft (ht : list R) (sampling_frequency : R)
    : result (list complex * list R) :=
  let ht := nfft_pad ht in
  let LL := Z.of_nat (length ht) in
  ff <- nfft_ff LL sampling_frequency ;;
  hf <- np_fft_rfft ht ;;
  let hf := (fun c => Cdiv_R c sampling_frequency) <$> hf in
  Ok (hf, ff).

(** ** [load_sxs_waveform] (utils.py, lines 108-141) *)

(** A two-dimensional numpy array: the number of columns and the rows. *)
Record ndarray : Type := { ncols : nat; rows : list (list R) }.

(** A group of the archive maps dataset names to tables; the archive maps
    extraction labels to groups; the file system maps paths to archives. *)
Abbreviation group := (gmap string ndarray).
Abbreviation archive := (gmap string group).

(** Subscript expressions: an integer, a slice [start:stop], or a tuple of
    subscripts as in [a[:, 1:]]. *)
#[warnings="-register-all"]
Inductive subscript : Type :=
  | Idx (i : Z)
  | Slice (start stop : option Z)
  | Tup (items : list subscript).

(** Python's normalisation of a slice bound against a length. *)
Definition slice_bound (len : Z) (dflt : Z) (b : option Z) : Z :=
  match b with
  | None => dflt
  | Some i => if decide (i < 0) then Z.max 0 (i + len) else Z.min i len
  end.

(** [s[ix]] on a string: an integer selects a character, a slice a
    substring; any other subscript, a tuple in particular, is a [TypeError]
    ("string indices must be integers"). *)
Definition str_getitem (s : string) (ix : subscript) : result string :=
  let len := Z.of_nat (String.length s) in
  match ix with
  | Idx i =>
      let i' := if decide (i < 0) then i + len else i in
      if decide (0 <= i' < len)
      then Ok (String.substring (Z.to_nat i') 1 s)
      else Raise IndexError
  | Slice a b =>
      let lo := slice_bound len 0 a in
      let hi := slice_bound len len b in
      Ok (String.substring (Z.to_nat lo) (Z.to_nat (hi - lo)) s)
  | Tup _ => Raise TypeError
  end.

(** [d[k]] on a dictionary with string keys. *)
Definition dict_getitem {V : Type} (d : gmap string V) (k : string)
    : result V :=
  match d !! k with
  | Some v => Ok v
  | None => Raise (KeyError k)
  end.

(** [a[:, j]]: column [j] of a table, negative [j] counting from the end. *)
Definition ndarray_column (a : ndarray) (j : Z) : result (list R) :=
  let n := Z.of_nat (ncols a) in
  let j' := if decide (j < 0) then j + n else j in
  if decide (0 <= j' < n)
  then Ok ((fun row => nth (Z.to_nat j') row 0%R) <$> rows a)
  else Raise IndexError.

(** ["Y_l{}_m{}.dat".format(ell, mm)]. *)
Definition dataset_name (ell mm : Z) : string :=
  "Y_l" +:+ pretty ell +:+ "_m" +:+ pretty mm +:+ ".dat".

(** [mode_array[:, 1] + 1j * mode_array[:, 2]]. *)
Definition mode_series (mode_array : ndarray) : result (list complex) :=
  re <- ndarray_column mode_array 1 ;;
  im <- ndarray_column mode_array 2 ;;
  Ok (zip_with Cadd (C_of_R <$> re) ((fun y => Cmul Cj (C_of_R y)) <$> im)).

(** [deepdish.io.load], an external primitive: the archive stored at the
    path, or an I/O error. *)
Definition deepdish_io_load (disk : gmap string archive) (file_name : string)
    : result archive :=
  match disk !! file_name with
  | Some a => Ok a
  | None => Raise FileNotFoundError
  end.

(** The local variables the loops of [load_sxs_waveform] assign:
    [mode_array] is unbound until the first iteration assigns it. *)
Record locals : Type := {
  output : gmap (Z * Z) (list complex);
  mode_array : option ndarray
}.

(** The default modes, in the order the nested loops visit them. *)
Definition default_modes : list (Z * Z) :=
  ell ← py_range 2 5; mm ← py_range (- ell) (ell + 1); [(ell, mm)].

(** The body of the loop over explicit modes (lines 138-139). *)
Definition load_mode (waveform : archive) (extraction : string)
    (mode : Z * Z) (st : locals) : result locals :=
  grp <- dict_getitem waveform extraction ;;
  arr <- dict_getitem grp (dataset_name mode.1 mode.2) ;;
  h <- mode_series arr ;;
  Ok {| output := <[mode := h]> (output st); mode_array := Some arr |}.

Definition load_sxs_waveform (disk : gmap string archive) (file_name : string)
    (modes : option (list (Z * Z))) (extraction : string)
    : result (gmap (Z * Z) (list complex) * list R) :=
  waveform <- deepdish_io_load disk file_name ;;
  let st := {| output := ∅; mode_array := None |} in
  st <- match modes with
        | None =>
            for_each (py_range 2 5) (fun ell st =>
              for_each (py_range (- ell) (ell + 1)) (fun mm st =>
                grp <- dict_getitem waveform extraction ;;
                key <- str_getitem (dataset_name ell mm)
                         (Tup [Slice None None; Slice (Some 1) None]) ;;
                arr <- dict_getitem grp key ;;
                h <- mode_series arr ;;
                Ok {| output := <[(ell, mm) := h]> (output st);
                      mode_array := Some arr |}) st) st
        | Some modes => for_each modes (load_mode waveform extraction) st
        end ;;
  match mode_array st with
  | None => Raise (UnboundLocalError "mode_array")
  | Some arr =>
      times <- ndarray_column arr 0 ;;
      Ok (output st, times)
  end.

(** An archive holding, under one extraction label, the same table for every
    default mode. *)
Definition full_group (tbl : ndarray) : group :=
  list_to_map ((fun lm => (dataset_name lm.1 lm.2, tbl)) <$> default_modes).

Definition sample_table : ndarray :=
  {| ncols := 3; rows := [[0; 1; 2]; [1; 3; 4]]%R |}.

Definition sample_disk : gmap string archive :=
  {[ "wave.h5" := {[ "OutermostExtraction.dir" := full_group sample_table ]} ]}.

(** ** [get_version_information] (utils.py, lines 154-160) *)

Definition is_sep (c : ascii) : bool := bool_decide (c = "/"%char).

Fixpoint has_sep (p : string) : bool :=
  match p with
  | EmptyString => false
  | String c p' => is_sep c || has_sep p'
  end.

Fixpoint all_sep (p : string) : bool :=
  match p with
  | EmptyString => true
  | String c p' => is_sep c && all_sep p'
  end.

(** [p.endswith("/")]. *)
Fixpoint ends_with_sep (p : string) : bool :=
  match p with
  | EmptyString => false
  | String c EmptyString => is_sep c
  | String _ p' => ends_with_sep p'
  end.

(** [p[: p.rfind("/") + 1]]. *)
Fixpoint up_to_last_sep (p : string) : string :=
  match p with
  | EmptyString => EmptyString
  | String c p' => if has_sep p then String c (up_to_last_sep p') else EmptyString
  end.

(** [s.rstrip(chars)] for the characters selected by [strip]. *)
Fixpoint rstrip_with (strip : ascii -> bool) (s : string) : string :=
  match s with
  | EmptyString => EmptyString
  | String c s' =>
      match rstrip_with strip s' with
      | EmptyString => if strip c then EmptyString else String c EmptyString
      | r => String c r
      end
  end.

(** [str.isspace] on one character, which is what [str.rstrip()] strips.
    A character of the model is a code point below 256.  Python's
    whitespace code points in that range are 9 to 13 (tab, line feed,
    vertical tab, form feed, carriage return), 28 to 31 (the information
    separators), 32 (space), 133 (U+0085, next line) and 160 (U+00A0,
    no-break space); the others (U+1680, U+2000 to U+200A, U+2028, U+2029,
    U+202F, U+205F, U+3000) lie above the range of the model. *)
Definition py_isspace (c : ascii) : bool :=
  let n := nat_of_ascii c in
  ((9 <=? n)%nat && (n <=? 13)%nat) || ((28 <=? n)%nat && (n <=? 32)%nat)
  || (n =? 133)%nat || (n =? 160)%nat.

Definition rstrip (s : string) : string := rstrip_with py_isspace s.

(** [os.path.dirname] (posixpath). *)
Definition os_path_dirname (p : string) : string :=
  let head := up_to_last_sep p in
  if negb (bool_decide (head = EmptyString)) && negb (all_sep head)
  then rstrip_with is_sep head else head.

(** [os.path.join(a, b)] (posixpath). *)
Definition os_path_join (a b : string) : string :=
  match b with
  | String c _ =>
      if is_sep c then b
      else if bool_decide (a = EmptyString) || ends_with_sep a
      then a +:+ b else a +:+ "/" +:+ b
  | EmptyString =>
      if bool_decide (a = EmptyString) || ends_with_sep a
      then a +:+ b else a +:+ "/" +:+ b
  end.

(** Is the exception an instance of [EnvironmentError] (an alias of
    [OSError], the class of I/O failures)? *)
Definition is_EnvironmentError (e : exn) : bool :=
  match e with
  | FileNotFoundError | PermissionError | IsADirectoryError | OSError => true
  | _ => false
  end.

(** What the file system does at a path: [open] raises, or [open] succeeds
    and [readline] raises or returns the first line. *)
Inductive file_behaviour : Type :=
  | OpenRaises (e : exn)
  | ReadlineRaises (e : exn)
  | ReadlineReturns (line : string).

(** A call's effect on the console together with what it returns or raises;
    [None] is Python's [None]. *)
Record outcome : Type := {
  printed : list string;
  returned : result (option string)
}.

Definition get_version_information (module_file : string)
    (io : string -> file_behaviour) : outcome :=
  let version_file := os_path_join (os_path_dirname module_file) ".version" in
  let attempt :=
    match io version_file with
    | OpenRaises e => Raise e
    | ReadlineRaises e => Raise e
    | ReadlineReturns line => Ok (Some (rstrip line))
    end in
  match attempt with
  | Ok v => {| printed := []; returned := Ok v |}
  | Raise e =>
      if is_EnvironmentError e
      then {| printed := ["No version information file '.version' found"];
              returned := Ok None |}
      else {| printed := []; returned := Raise e |}
  end.

(** ** [planck]: the Planck-taper window (utils.py, lines 163-232) *)

(** The exact reading: every float is a real number and no operation
    rounds.  The binary64 reading of the same lines is [planck64] below. *)

(** The exponent [t2 / k + t2 / (k - t2)] of line 224. *)
Definition taper_exponent (t2 k : Z) : R :=
  (IZR t2 / IZR k + IZR t2 / IZR (k - t2))%R.

(** The profile [1 / (exp(z) + 1)] of line 225. *)
Definition logistic (z : R) : R := (1 / (exp z + 1))%R.

(** [t2 = min(M // 2, int(np.floor(e * (M - 1))))] of line 222, the product
    being exact. *)
Definition half_width (M : Z) (e : R) : Z :=
  Z.min (M / 2) (py_int (np_floor (e * IZR (M - 1)))).

(** The value of the window at position [k] of the rising taper. *)
Definition taper (t2 k : Z) : R := logistic (taper_exponent t2 k).

(** The array assembled on line 228 for an internal length [M]:
    [[0.0], w1, w2, w3, [0.0]]. *)
Definition sym_window (M : Z) (e : R) : list R :=
  let t2 := half_width M e in
  let w1 := taper t2 <$> np_arange 1 t2 in
  [0%R] ++ w1 ++ replicate (Z.to_nat (M - 2 - Z.of_nat (length w1) * 2)) 1%R
    ++ reverse w1 ++ [0%R].

(** Truth value of an integer in a condition: non-zero is true. *)
Definition truthy (n : Z) : bool := bool_decide (n <> 0).

Definition planck (M : Z) (e : R) (sym : bool) : result (list R) :=
  if decide (M < 1) then Ok []
  else if decide (M < 3) then np_ones M
  else
    let odd := M mod 2 in
    let M := if negb sym && negb (truthy odd) then M + 1 else M in
    let t2 := half_width M e in
    let w1 := np_arange 1 t2 in
    let w1 := taper_exponent t2 <$> w1 in
    let w1 := logistic <$> w1 in
    w2 <- np_ones (M - 2 - Z.of_nat (length w1) * 2) ;;
    let w3 := reverse w1 in
    let w := [0%R] ++ w1 ++ w2 ++ w3 ++ [0%R] in
    let w := if negb sym && negb (truthy odd) then removelast w else w in
    Ok w.

(** ** Constants and unit conversions (utils.py, lines 9-75) *)

(** Speed of light in m/s. *)
Definition CC : R := 299792458.0%R.
(** Newton's constant in m^3 / (kg s^2). *)
Definition GG : R := 6.67384e-11%R.
(** Solar mass in kg: [1.98855 * 10 ** (30)]. *)
Definition SOLAR_MASS : R := (1.98855 * 10 ^ 30)%R.
(** The module evaluates these quotients once at import; the divisors are
    the non-zero constants above. *)
Definition KG : R := (1 / SOLAR_MASS)%R.
Definition METRE : R := (CC ^ 2 / (GG * SOLAR_MASS))%R.
Definition SECOND : R := (CC * METRE)%R.
(** Megaparsec in metres. *)
Definition MPC : R := 3.08568e22%R.

Definition m_sol_to_geo (mm : R) : result R :=
  a <- py_div mm KG ;;
  py_div (a * GG) (CC ^ 2).

Definition m_geo_to_sol (mm : R) : result R :=
  a <- py_div (mm * KG) GG ;;
  Ok (a * CC ^ 2)%R.

Definition time_s_to_geo (time : R) : R := (time * CC)%R.

Definition time_geo_to_s (time : R) : result R := py_div time CC.

Definition freq_Hz_to_geo (freq : R) : result R := py_div freq CC.

Definition freq_geo_to_Hz (freq : R) : R := (freq * CC)%R.

Definition dist_Mpc_to_geo (dist : R) : R := (dist * MPC)%R.

(** ** [combine_modes] (utils.py, lines 144-151) *)

(** A numpy value as the function meets it: a complex scalar or a
    one-dimensional complex array. *)
Inductive npvalue : Type :=
  | Scalar (c : complex)
  | Array (a : list complex).

(** [x + y] with numpy's broadcasting: a scalar or a one-element array
    combines with any array; arrays of different lengths, neither of them
    one, raise [ValueError]. *)
Definition np_add (x y : npvalue) : result npvalue :=
  match x, y with
  | Scalar a, Scalar b => Ok (Scalar (Cadd a b))
  | Scalar a, Array ys => Ok (Array (Cadd a <$> ys))
  | Array xs, Scalar b => Ok (Array ((fun c => Cadd c b) <$> xs))
  | Array xs, Array ys =>
      if decide (length xs = length ys) then Ok (Array (zip_with Cadd xs ys))
      else match xs, ys with
           | [a], _ => Ok (Array (Cadd a <$> ys))
           | _, [b] => Ok (Array ((fun c => Cadd c b) <$> xs))
           | _, _ => Raise ValueError
           end
  end.

(** The builtin [sum]: starts from the integer [0] and adds the items from
    left to right. *)
Definition py_sum (xs : list npvalue) : result npvalue :=
  for_each xs (fun x acc => np_add acc x) (Scalar (C_of_R 0)).

(** A real numpy value: what [.real] and [.imag] return. *)
Inductive npreal : Type :=
  | RScalar (x : R)
  | RArray (a : list R).

Definition np_real (v : npvalue) : npreal :=
  match v with
  | Scalar c => RScalar c.1
  | Array a => RArray (fst <$> a)
  end.

Definition np_imag (v : npvalue) : npreal :=
  match v with
  | Scalar c => RScalar c.2
  | Array a => RArray (snd <$> a)
  end.

Definition np_neg (v : npreal) : npreal :=
  match v with
  | RScalar x => RScalar (- x)
  | RArray a => RArray (Ropp <$> a)
  end.

(** The returned dictionary [dict(plus=..., cross=...)]. *)
Record polarisations : Type := { plus : npreal; cross : npreal }.

(** [h_lm[(l, m)] * sYlm(-2, l, m, inc, phase)]: an array times a complex
    scalar. *)
Definition mode_term (sYlm : Z -> Z -> Z -> R -> R -> complex)
    (inc phase : R) (item : (Z * Z) * list complex) : npvalue :=
  Array ((fun c => Cmul c (sYlm (-2) item.1.1 item.1.2 inc phase))
           <$> item.2).

(** The spin-weighted spherical harmonic [sYlm] lives in the module
    [harmonics], which is not part of this file: it is a parameter.  The
    dictionary is iterated in the map's own key order; over the reals the
    sum does not depend on the order. *)
Definition combine_modes (sYlm : Z -> Z -> Z -> R -> R -> complex)
    (h_lm : gmap (Z * Z) (list complex)) (inc phase : R)
    : result polarisations :=
  total <- py_sum (mode_term sYlm inc phase <$> map_to_list h_lm) ;;
  Ok {| plus := np_real total; cross := np_neg (np_imag total) |}.

(** ** Auxiliary definitions for the further properties *)

(** The loop of the builtin [sum], from a running value. *)
Definition sum_from (acc : npvalue) (xs : list npvalue) : result npvalue :=
  for_each xs (fun x acc => np_add acc x) acc.

(** The arrays that [sum] adds up in [combine_modes], one per mode. *)
Definition mode_arrays (sYlm : Z -> Z -> Z -> R -> R -> complex)
    (inc phase : R) (h_lm : gmap (Z * Z) (list complex))
    : list (list complex) :=
  (fun item : (Z * Z) * list complex =>
     (fun c => Cmul c (sYlm (-2) item.1.1 item.1.2 inc phase)) <$> item.2)
    <$> map_to_list h_lm.

(** Every character of the string satisfies the test. *)
Fixpoint string_forallb (p : ascii -> bool) (s : string) : bool :=
  match s with
  | EmptyString => true
  | String c s' => p c && string_forallb p s'
  end.

(** The last character of a string, if any. *)
Fixpoint last_char (s : string) : option ascii :=
  match s with
  | EmptyString => None
  | String c EmptyString => Some c
  | String _ s' => last_char s'
  end.

(** An archive whose only dataset has two columns instead of three. *)
Definition short_table : ndarray :=
  {| ncols := 2; rows := [[0; 1]; [1; 3]]%R |}.

Definition short_disk : gmap string archive :=
  {[ "wave.h5" :=
       {[ "OutermostExtraction.dir" := {[ "Y_l2_m2.dat" := short_table ]} ]} ]}.

(** A constant stand-in for the harmonic, used in examples. *)
Definition unit_harmonic (s l m : Z) (inc phase : R) : complex := (1%R, 0%R).

(** ** The binary64 reading (utils.py, lines 25-27 and 163-232) *)

(** An integer converted to a float, as Python and numpy do when an integer
    meets a float in an arithmetic operation: rounded to the nearest
    binary64 number, ties to even; an integer beyond the largest finite
    float becomes an infinity here and is intercepted by
    [py_float_of_int]. *)
Definition float_of_Z (z : Z) : float :=
  SF2Prim (binary_normalize prec emax z 0 false).

(** The same conversion for a Python [int] operand: an integer too large for
    a float raises [OverflowError]. *)
Definition py_float_of_int (z : Z) : result float :=
  let f := float_of_Z z in
  if is_infinity f then Raise OverflowError else Ok f.

(** [int(np.floor(x))] on a binary64 [x].  [np.floor] leaves NaN and the
    infinities as they are, and [int] raises [ValueError] on NaN and
    [OverflowError] on an infinity; on a finite [x], which is an integer [m]
    times a power of two, the two steps give the integer floor exactly. *)
Definition py_int_np_floor64 (x : float) : result Z :=
  match Prim2SF x with
  | S754_nan => Raise ValueError
  | S754_infinity _ => Raise OverflowError
  | S754_zero _ => Ok 0
  | S754_finite s m e =>
      let z := if s then Z.neg m else Z.pos m in
      Ok (if decide (0 <= e) then z * 2 ^ e else z / 2 ^ (- e))
  end.

(** [t2 = min(M // 2, int(np.floor(e * (M - 1))))] of line 222: the integer
    [M - 1] is converted to a float, the product is rounded to binary64, and
    only then floored. *)
Definition half_width64 (M : Z) (e : float) : result Z :=
  f <- py_float_of_int (M - 1) ;;
  t <- py_int_np_floor64 (e * f)%float ;;
  Ok (Z.min (M / 2) t).

(** The exponent [t2 / k + t2 / (k - t2)] of line 224 on the integer array
    [w1]: numpy's true division converts both integers to floats. *)
Definition taper_exponent64 (t2 k : Z) : float :=
  (float_of_Z t2 / float_of_Z k + float_of_Z t2 / float_of_Z (k - t2))%float.

(** The profile [1 / (np.exp(z) + 1)] of line 225.  [np.exp] is the
    exponential of the C library, which is not part of the module: it is a
    parameter of the model. *)
Definition logistic64 (np_exp : float -> float) (z : float) : float :=
  (1 / (np_exp z + 1))%float.

(** [np.ones(n)] in binary64. *)
Definition np_ones64 (n : Z) : result (list float) :=
  if decide (n < 0) then Raise ValueError
  else Ok (replicate (Z.to_nat n) 1%float).

(** [planck] in binary64 (lines 214-232). *)
Definition planck64 (np_exp : float -> float) (M : Z) (e : float)
    (sym : bool) : result (list float) :=
  if decide (M < 1) then Ok []
  else if decide (M < 3) then np_ones64 M
  else
    let odd := M mod 2 in
    let M := if negb sym && negb (truthy odd) then M + 1 else M in
    t2 <- half_width64 M e ;;
    let w1 := np_arange 1 t2 in
    let w1 := taper_exponent64 t2 <$> w1 in
    let w1 := logistic64 np_exp <$> w1 in
    w2 <- np_ones64 (M - 2 - Z.of_nat (length w1) * 2) ;;
    let w3 := reverse w1 in
    let w := [0%float] ++ w1 ++ w2 ++ w3 ++ [0%float] in
    let w := if negb sym && negb (truthy odd) then removelast w else w in
    Ok w.

(** The array assembled on line 228 for an internal length [M] and a
    half-width [t2]. *)
Definition window64 (np_exp : float -> float) (M t2 : Z) : list float :=
  let w1 := (fun k => logistic64 np_exp (taper_exponent64 t2 k))
              <$> np_arange 1 t2 in
  [0%float] ++ w1
    ++ replicate (Z.to_nat (M - 2 - Z.of_nat (length w1) * 2)) 1%float
    ++ reverse w1 ++ [0%float].

(** A binary64 exponential to evaluate the model on concrete inputs, in
    place of the C library's: the argument is reduced by a multiple [k] of
    [ln 2] (kept in two parts), the remainder goes through sixteen terms of
    the exponential series in Horner form, and the result is scaled by
    [2 ^ k].  It overflows to infinity and underflows to zero where the
    exponential does, and is within a few units in the last place of it in
    between. *)
Definition floor_Z (x : float) : Z :=
  match py_int_np_floor64 x with Ok z => z | Raise _ => 0 end.

Fixpoint exp_series (r : float) (i : nat) (n : nat) : float :=
  match n with
  | O => 1%float
  | S n' => (1 + r / float_of_Z (Z.of_nat i) * exp_series r (S i) n')%float
  end.

Definition ln2_hi : float := 0x1.62e42fee00000p-1%float.
Definition ln2_lo : float := 0x1.a39ef35793c76p-33%float.
Definition inv_ln2 : float := 0x1.71547652b82fep+0%float.

Definition exp64 (x : float) : float :=
  if is_nan x then nan
  else if (709.782712893384 <? x)%float then infinity
  else if (x <? -745.1332191019412)%float then 0%float
  else
    let k := floor_Z (x * inv_ln2 + 0.5)%float in
    let kf := float_of_Z k in
    let r := (x - kf * ln2_hi - kf * ln2_lo)%float in
    Z.ldexp (exp_series r 1 16) k.

(** [x ** 2] on a Python float: the rounded square; a finite [x] whose
    square overflows raises [OverflowError], a square that underflows is
    [0.0]. *)
Definition py_square64 (x : float) : result float :=
  let y := (x * x)%float in
  if is_infinity y && negb (is_infinity x) then Raise OverflowError
  else Ok y.

(** [x / y] on Python floats in binary64: a zero divisor, of either sign,
    raises. *)
Definition py_div64 (x y : float) : result float :=
  if is_zero y then Raise ZeroDivisionError else Ok (x / y)%float.

(** [m12_to_symratio] in binary64 (line 27): the product, then the square
    of the sum, then the quotient, each rounded. *)
Definition m12_to_symratio64 (m1 m2 : float) : result float :=
  let p := (m1 * m2)%float in
  d <- py_square64 (m1 + m2)%float ;;
  py_div64 p d.

(** The base [1 - 4 * eta] of the square root on lines 38 and 39, in
    binary64. *)
Definition discriminant64 (eta : float) : float := (1 - 4 * eta)%float.

(** * Properties *)

(** ** Rounding of reals to integers *)

Lemma Int_part_IZR (z : Z) : Int_part (IZR z) = z.
Proof. symmetry. apply Int_part_spec. lra. Qed.

Lemma py_int_IZR (z : Z) : py_int (IZR z) = z.
Proof.
  unfold py_int. destruct (Rle_dec 0 (IZR z)) as [_|_].
  - apply Int_part_IZR.
  - rewrite <- opp_IZR, Int_part_IZR. lia.
Qed.



Lemma half_width_le (M : Z) (e : R) : half_width M e <= M / 2.
Proof. unfold half_width. lia. Qed.

(** ** The shape of the Planck window *)

Lemma np_ones_nonneg (n : Z) :
  0 <= n -> np_ones n = Ok (replicate (Z.to_nat n) 1%R).
Proof. intros Hn. unfold np_ones. case_decide; [lia | reflexivity]. Qed.

Lemma length_rising (t2 : Z) :
  length (taper t2 <$> np_arange 1 t2) = Z.to_nat (t2 - 1).
Proof. unfold np_arange. now rewrite length_fmap, length_seqZ. Qed.

(** The flat interior never has a negative length, so [np.ones] on line 226
    cannot raise. *)
Lemma flat_length_nonneg (M : Z) (e : R) :
  2 <= M ->
  0 <= M - 2 - Z.of_nat (length (taper (half_width M e)
                                   <$> np_arange 1 (half_width M e))) * 2.
Proof.
  intros HM. rewrite length_rising.
  pose proof (half_width_le M e) as Hle.
  assert (2 * (M / 2) <= M) by (apply Z.mul_div_le; lia).
  lia.
Qed.

Lemma length_sym_window (M : Z) (e : R) :
  2 <= M -> length (sym_window M e) = Z.to_nat M.
Proof.
  intros HM. pose proof (flat_length_nonneg M e HM) as Hflat.
  unfold sym_window. cbn zeta.
  rewrite !length_app, length_replicate, length_reverse. simpl.
  lia.
Qed.

(** From three points on, [planck] is the symmetric construction on the
    internal length, with the last element dropped in the periodic even
    case. *)
Lemma planck_unfold (M : Z) (e : R) (sym : bool) :
  3 <= M ->
  planck M e sym =
    Ok (if negb sym && bool_decide (M mod 2 = 0)
        then removelast (sym_window (M + 1) e)
        else sym_window M e).
Proof.
  intros HM. unfold planck.
  case_decide; [lia|]. case_decide; [lia|]. cbn zeta.
  assert (Hp : negb (truthy (M mod 2)) = bool_decide (M mod 2 = 0)).
  { unfold truthy. do 2 case_bool_decide; simpl; congruence. }
  rewrite Hp.
  destruct (negb sym && bool_decide (M mod 2 = 0)) eqn:Hper.
  - rewrite <- list_fmap_compose.
    change (logistic ∘ taper_exponent (half_width (M + 1) e))
      with (taper (half_width (M + 1) e)).
    rewrite np_ones_nonneg by (apply flat_length_nonneg; lia).
    reflexivity.
  - rewrite <- list_fmap_compose.
    change (logistic ∘ taper_exponent (half_width M e))
      with (taper (half_width M e)).
    rewrite np_ones_nonneg by (apply flat_length_nonneg; lia).
    reflexivity.
Qed.

Lemma sym_window_head (M : Z) (e : R) : head (sym_window M e) = Some 0%R.
Proof. reflexivity. Qed.

Lemma sym_window_last (M : Z) (e : R) : last (sym_window M e) = Some 0%R.
Proof.
  unfold sym_window. cbn zeta.
  rewrite !app_assoc. apply last_snoc.
Qed.

(** ** The window position by position *)

Lemma lookup_assembled {A : Type} (a b : A) (l1 l2 l3 : list A) (i : nat) :
  ([a] ++ l1 ++ l2 ++ l3 ++ [b]) !! i =
    if decide (i = 0)%nat then Some a
    else if decide (i < 1 + length l1)%nat then l1 !! (i - 1)%nat
    else if decide (i < 1 + length l1 + length l2)%nat
      then l2 !! (i - 1 - length l1)%nat
    else if decide (i < 1 + length l1 + length l2 + length l3)%nat
      then l3 !! (i - 1 - length l1 - length l2)%nat
    else [b] !! (i - 1 - length l1 - length l2 - length l3)%nat.
Proof.
  destruct i as [|i]; [reflexivity|].
  change (([a] ++ l1 ++ l2 ++ l3 ++ [b]) !! S i)
    with ((l1 ++ l2 ++ l3 ++ [b]) !! i).
  replace (S i - 1)%nat with i by lia.
  repeat case_decide; try lia.
  - now rewrite lookup_app_l by lia.
  - rewrite lookup_app_r by lia. now rewrite lookup_app_l by lia.
  - do 2 rewrite lookup_app_r by lia. rewrite lookup_app_l by lia.
    f_equal; lia.
  - do 3 rewrite lookup_app_r by lia. f_equal; lia.
Qed.



Open Scope R_scope.








Open Scope Z_scope.


(** ** The binary64 window *)

(** [int(np.floor(x))] returns on a finite float, raises [ValueError] on NaN
    and [OverflowError] on an infinity. *)
Lemma py_int_np_floor64_finite (x : float) :
  is_finite x = true -> exists t : Z, py_int_np_floor64 x = Ok t.
Proof.
  unfold is_finite. intros Hfin.
  apply negb_true_iff, orb_false_iff in Hfin as [Hnan Hinf].
  unfold py_int_np_floor64, Prim2SF. rewrite Hnan, Hinf.
  destruct (is_zero x); [eauto|].
  destruct (Z.frexp x) as [r ex].
  destruct (shr_fexp prec emax _ _ _) as [shr e'].
  destruct (shr_m shr); eauto.
Qed.

Lemma py_int_np_floor64_nan (x : float) :
  is_nan x = true -> py_int_np_floor64 x = Raise ValueError.
Proof. intros H. unfold py_int_np_floor64, Prim2SF. now rewrite H. Qed.

Lemma py_int_np_floor64_infinity (x : float) :
  is_infinity x = true -> py_int_np_floor64 x = Raise OverflowError.
Proof.
  unfold is_infinity.
  rewrite FloatAxioms.eqb_spec, FloatAxioms.abs_spec.
  unfold py_int_np_floor64.
  destruct (Prim2SF x) as [s|s| |s m e]; simpl; try discriminate.
  reflexivity.
Qed.

Lemma half_width64_finite (M : Z) (e f : float) :
  py_float_of_int (M - 1) = Ok f -> is_finite (e * f)%float = true ->
  exists t : Z, half_width64 M e = Ok t.
Proof.
  intros Hf Hfin. destruct (py_int_np_floor64_finite _ Hfin) as [t Ht].
  exists (Z.min (M / 2) t). unfold half_width64.
  rewrite Hf. cbn [bind]. rewrite Ht. reflexivity.
Qed.

Lemma half_width64_le (M : Z) (e : float) (t : Z) :
  half_width64 M e = Ok t -> t <= M / 2.
Proof.
  unfold half_width64. destruct (py_float_of_int (M - 1)); [|discriminate].
  cbn [bind]. destruct (py_int_np_floor64 _); [|discriminate].
  cbn [bind]. intros [= <-]. lia.
Qed.

Lemma np_ones64_nonneg (n : Z) :
  0 <= n -> np_ones64 n = Ok (replicate (Z.to_nat n) 1%float).
Proof. intros Hn. unfold np_ones64. case_decide; [lia | reflexivity]. Qed.

Lemma length_rising64 (np_exp : float -> float) (t2 : Z) :
  length ((fun k => logistic64 np_exp (taper_exponent64 t2 k))
            <$> np_arange 1 t2) = Z.to_nat (t2 - 1).
Proof. unfold np_arange. now rewrite length_fmap, length_seqZ. Qed.

(** [np.ones] on line 226 never receives a negative length. *)
Lemma flat_length64_nonneg (np_exp : float -> float) (M t2 : Z) :
  2 <= M -> t2 <= M / 2 ->
  0 <= M - 2 - Z.of_nat (length ((fun k => logistic64 np_exp
                                             (taper_exponent64 t2 k))
                                   <$> np_arange 1 t2)) * 2.
Proof.
  intros HM Ht. rewrite length_rising64.
  assert (2 * (M / 2) <= M) by (apply Z.mul_div_le; lia). lia.
Qed.

Lemma length_window64 (np_exp : float -> float) (M t2 : Z) :
  2 <= M -> t2 <= M / 2 -> length (window64 np_exp M t2) = Z.to_nat M.
Proof.
  intros HM Ht. pose proof (flat_length64_nonneg np_exp M t2 HM Ht) as Hflat.
  unfold window64. cbn zeta.
  rewrite length_rising64 in Hflat.
  rewrite !length_app, length_replicate, length_reverse, length_rising64.
  simpl. lia.
Qed.

(** Once the half-width is computed, [planck] returns the assembled array,
    without its last element in the periodic even case. *)
Lemma planck64_unfold (np_exp : float -> float) (M : Z) (e : float)
    (sym : bool) (t2 : Z) :
  3 <= M ->
  half_width64 (if negb sym && bool_decide (M mod 2 = 0) then M + 1 else M) e
    = Ok t2 ->
  planck64 np_exp M e sym =
    Ok (if negb sym && bool_decide (M mod 2 = 0)
        then removelast (window64 np_exp (M + 1) t2)
        else window64 np_exp M t2).
Proof.
  intros HM Ht. unfold planck64.
  destruct (decide (M < 1)); [lia|]. destruct (decide (M < 3)); [lia|].
  cbn zeta.
  assert (Hp : negb (truthy (M mod 2)) = bool_decide (M mod 2 = 0)).
  { unfold truthy. do 2 case_bool_decide; simpl; congruence. }
  rewrite Hp. pose proof (half_width64_le _ _ _ Ht) as Hle.
  destruct (negb sym && bool_decide (M mod 2 = 0)) eqn:Hper.
  - rewrite Ht. cbn [bind]. rewrite <- list_fmap_compose.
    rewrite np_ones64_nonneg by (apply (flat_length64_nonneg np_exp); lia).
    reflexivity.
  - rewrite Ht. cbn [bind]. rewrite <- list_fmap_compose.
    rewrite np_ones64_nonneg by (apply (flat_length64_nonneg np_exp); lia).
    reflexivity.
Qed.

(** An exception raised by the half-width computation leaves [planck]. *)
Lemma planck64_raises (np_exp : float -> float) (M : Z) (e : float)
    (sym : bool) (x : exn) :
  3 <= M ->
  half_width64 (if negb sym && bool_decide (M mod 2 = 0) then M + 1 else M) e
    = Raise x ->
  planck64 np_exp M e sym = Raise x.
Proof.
  intros HM Ht. unfold planck64.
  destruct (decide (M < 1)); [lia|]. destruct (decide (M < 3)); [lia|].
  cbn zeta.
  assert (Hp : negb (truthy (M mod 2)) = bool_decide (M mod 2 = 0)).
  { unfold truthy. do 2 case_bool_decide; simpl; congruence. }
  rewrite Hp. rewrite Ht. reflexivity.
Qed.

Lemma head_window64 (np_exp : float -> float) (M t2 : Z) :
  head (window64 np_exp M t2) = Some 0%float.
Proof. reflexivity. Qed.

Lemma last_window64 (np_exp : float -> float) (M t2 : Z) :
  last (window64 np_exp M t2) = Some 0%float.
Proof. unfold window64. cbn zeta. rewrite !app_assoc. apply last_snoc. Qed.

Lemma lookup_rising64 (np_exp : float -> float) (t2 : Z) (i : nat) :
  Z.of_nat i < t2 - 1 ->
  ((fun k => logistic64 np_exp (taper_exponent64 t2 k)) <$> np_arange 1 t2)
    !! i = Some (logistic64 np_exp (taper_exponent64 t2 (1 + Z.of_nat i))).
Proof.
  intros Hi. rewrite list_lookup_fmap. unfold np_arange.
  rewrite lookup_seqZ_lt by lia. reflexivity.
Qed.

(** The assembled array in closed form: zero, rising taper, flat interior,
    falling taper, zero. *)
Lemma window64_lookup (np_exp : float -> float) (M t2 i : Z) :
  2 <= M -> t2 <= M / 2 -> 0 <= i < M ->
  let lo := Z.max 1 t2 in
  window64 np_exp M t2 !! Z.to_nat i =
    Some (if decide (i = 0) then 0%float
          else if decide (i < lo)
            then logistic64 np_exp (taper_exponent64 t2 i)
          else if decide (i < M - lo) then 1%float
          else if decide (i < M - 1)
            then logistic64 np_exp (taper_exponent64 t2 (M - 1 - i))
          else 0%float).
Proof.
  intros HM Ht Hi lo.
  pose proof (flat_length64_nonneg np_exp M t2 HM Ht) as Hflat.
  unfold window64. cbn zeta.
  rewrite lookup_assembled.
  rewrite length_reverse, length_replicate.
  rewrite length_rising64 in *.
  repeat case_decide; try lia.
  - reflexivity.
  - rewrite lookup_rising64 by lia. do 2 f_equal. f_equal. lia.
  - rewrite lookup_replicate_2; [reflexivity | lia].
  - rewrite reverse_lookup by (rewrite length_rising64; lia).
    rewrite length_rising64. rewrite lookup_rising64 by lia.
    do 2 f_equal. f_equal. lia.
  - replace (_ - _ - _ - _ - _)%nat with 0%nat by lia. reflexivity.
Qed.

(** ** Claims about [planck] *)


(** C4: for every integer [M <= 0] and every [e], [planck] returns the empty
    sequence without raising; for [M = 1] and [M = 2] it returns [M] ones,
    so [planck(2, 0.1)] is [[1, 1]].  It holds for either value of [sym]. *)
Theorem planck_degenerate_sizes (M : Z) (e : R) (sym : bool) :
  (M <= 0 -> planck M e sym = Ok []) /\
  planck 1 e sym = Ok [1%R] /\
  planck 2 e sym = Ok [1%R; 1%R] /\
  planck 2 (1 / 10) true = Ok [1%R; 1%R].
Proof.
  split; [|by repeat split].
  intros HM. unfold planck. case_decide; [reflexivity | lia].
Qed.

Lemma planck_degenerate_sizes_witness :
  planck 0 (1 / 10) true = Ok [] /\ planck (-4) 7 false = Ok [].
Proof.
  split.
  - apply (proj1 (planck_degenerate_sizes 0 (1 / 10) true)). lia.
  - apply (proj1 (planck_degenerate_sizes (-4) 7 false)). lia.
Defined.

(** C2, as amended: for every [M >= 3] and every binary64 [e] for which
    [M - 1] converts to a float [f] and the rounded product [e * f] is
    finite, [planck(M, e, sym=True)] returns a sequence of length exactly
    [M] whose first and last elements are exactly [0.0]; and [planck(5, 0.1)]
    is [[0.0, 1.0, 1.0, 1.0, 0.0]].  It holds whatever [np.exp] computes. *)
Theorem planck64_sym_length_and_ends (np_exp : float -> float) (M : Z)
    (e f : float) :
  3 <= M ->
  py_float_of_int (M - 1) = Ok f ->
  is_finite (e * f)%float = true ->
  (exists w : list float,
      planck64 np_exp M e true = Ok w /\
      Z.of_nat (length w) = M /\
      head w = Some 0%float /\
      last w = Some 0%float) /\
  planck64 np_exp 5 0.1 true = Ok [0; 1; 1; 1; 0]%float.
Proof.
  intros HM Hf Hfin. split; [|reflexivity].
  destruct (half_width64_finite M e f Hf Hfin) as [t2 Ht].
  pose proof (half_width64_le M e t2 Ht) as Hle.
  exists (window64 np_exp M t2). split; [|split; [|split]].
  - rewrite (planck64_unfold np_exp M e true t2) by assumption. reflexivity.
  - rewrite length_window64 by lia. lia.
  - apply head_window64.
  - apply last_window64.
Qed.

Lemma planck64_sym_length_and_ends_witness :
  exists w : list float,
    planck64 exp64 7 0.3 true = Ok w /\
    Z.of_nat (length w) = 7 /\
    head w = Some 0%float /\ last w = Some 0%float.
Proof.
  apply (proj1 (planck64_sym_length_and_ends exp64 7 0.3 6 ltac:(lia)
                  ltac:(vm_compute; reflexivity)
                  ltac:(vm_compute; reflexivity))).
Defined.

(** C2 as stated fails for some [e]: with [e = 1e308] the product
    [e * (M - 1)] overflows to infinity and [int] raises [OverflowError];
    with a NaN it raises [ValueError].  Nothing is returned. *)
Lemma planck_sym_overflow_raises :
  planck64 exp64 5 1e308 true = Raise OverflowError /\
  planck64 exp64 5 nan true = Raise ValueError.
Proof. split; vm_compute; reflexivity. Qed.

(** C5, as amended: for every even [M >= 3] and every binary64 [e],
    [planck(M, e, sym=False)] is the symmetric construction on the internal
    length [M + 1] with its final element dropped: it raises what
    [planck(M + 1, e, sym=True)] raises, and when [M] converts to a float
    [f] and the rounded product [e * f] is finite, it returns a sequence
    of length exactly [M]. *)
Theorem planck64_periodic_even (np_exp : float -> float) (M : Z)
    (e : float) :
  3 <= M -> M mod 2 = 0 ->
  planck64 np_exp M e false
    = (w <- planck64 np_exp (M + 1) e true ;; Ok (removelast w)) /\
  forall f : float,
    py_float_of_int M = Ok f -> is_finite (e * f)%float = true ->
    exists w : list float,
      planck64 np_exp (M + 1) e true = Ok w /\
      Z.of_nat (length w) = M + 1 /\
      planck64 np_exp M e false = Ok (removelast w) /\
      Z.of_nat (length (removelast w)) = M.
Proof.
  intros HM Heven.
  assert (Hper : negb false && bool_decide (M mod 2 = 0) = true).
  { rewrite bool_decide_eq_true_2 by assumption. reflexivity. }
  assert (Hsym : half_width64
                   (if negb true && bool_decide ((M + 1) mod 2 = 0)
                    then M + 1 + 1 else M + 1) e
                 = half_width64 (M + 1) e) by reflexivity.
  assert (Hrel : planck64 np_exp M e false
                 = (w <- planck64 np_exp (M + 1) e true ;;
                    Ok (removelast w))).
  { destruct (half_width64 (M + 1) e) as [t2|x] eqn:Ht.
    - rewrite (planck64_unfold np_exp M e false t2) by (rewrite ?Hper; auto).
      rewrite (planck64_unfold np_exp (M + 1) e true t2)
        by (rewrite ?Hsym; auto; lia).
      rewrite Hper. reflexivity.
    - rewrite (planck64_raises np_exp M e false x) by (rewrite ?Hper; auto).
      rewrite (planck64_raises np_exp (M + 1) e true x)
        by (rewrite ?Hsym; auto; lia).
      reflexivity. }
  split; [exact Hrel|].
  intros f Hf Hfin.
  assert (Hf' : py_float_of_int (M + 1 - 1) = Ok f).
  { replace (M + 1 - 1) with M by lia. exact Hf. }
  destruct (half_width64_finite (M + 1) e f Hf' Hfin) as [t2 Ht].
  pose proof (half_width64_le (M + 1) e t2 Ht) as Hle.
  assert (Hlen : length (window64 np_exp (M + 1) t2) = Z.to_nat (M + 1))
    by (apply length_window64; lia).
  assert (Hw : planck64 np_exp (M + 1) e true
               = Ok (window64 np_exp (M + 1) t2)).
  { rewrite (planck64_unfold np_exp (M + 1) e true t2)
      by (rewrite ?Hsym; auto; lia).
    reflexivity. }
  exists (window64 np_exp (M + 1) t2).
  split; [exact Hw|]. split; [lia|]. split.
  - rewrite Hrel, Hw. reflexivity.
  - rewrite removelast_firstn_len, length_take. lia.
Qed.

Lemma planck64_periodic_even_witness :
  planck64 exp64 4 0.1 false
    = (w <- planck64 exp64 (4 + 1) 0.1 true ;; Ok (removelast w)) /\
  exists w : list float,
    planck64 exp64 (4 + 1) 0.1 true = Ok w /\
    Z.of_nat (length w) = 4 + 1 /\
    planck64 exp64 4 0.1 false = Ok (removelast w) /\
    Z.of_nat (length (removelast w)) = 4.
Proof.
  destruct (planck64_periodic_even exp64 4 0.1 ltac:(lia) ltac:(reflexivity))
    as [Hrel Hret].
  split; [exact Hrel|].
  apply (Hret 4%float); vm_compute; reflexivity.
Defined.

(** C5 as stated fails for some [e]: with [e = 1e308] the product
    [e * M] overflows to infinity and [int] raises [OverflowError], so no
    sequence of length [M] is returned. *)
Lemma planck_periodic_overflow_raises :
  planck64 exp64 4 1e308 false = Raise OverflowError.
Proof. vm_compute. reflexivity. Qed.

(** C10: for every odd [M >= 1] and every [e], [planck(M, e, sym=False)]
    returns exactly what [planck(M, e, sym=True)] returns: the periodic
    adjustment is applied only when [M] is even. *)
Theorem planck_periodic_odd (M : Z) (e : R) :
  1 <= M -> M mod 2 = 1 -> planck M e false = planck M e true.
Proof.
  intros HM Hodd.
  destruct (decide (M < 3)) as [Hsmall|Hbig].
  - unfold planck. case_decide; [lia|]. case_decide; [reflexivity | lia].
  - rewrite !planck_unfold by lia.
    rewrite bool_decide_eq_false_2 by lia. reflexivity.
Qed.

Lemma planck_periodic_odd_witness :
  planck 5 (1 / 10) false = planck 5 (1 / 10) true /\
  planck 1 (1 / 10) false = planck 1 (1 / 10) true.
Proof.
  split.
  - apply (planck_periodic_odd 5 (1 / 10)); [lia | reflexivity].
  - apply (planck_periodic_odd 1 (1 / 10)); [lia | reflexivity].
Defined.




(** ** Mass-parameter conversions *)

Open Scope R_scope.

Lemma py_pow_pos (x y : R) : 0 < x -> py_pow x y = Ok (Rpower x y).
Proof. intros Hx. unfold py_pow. destruct (Rlt_dec 0 x); [reflexivity | lra]. Qed.

Lemma py_pow_zero (y : R) : 0 < y -> py_pow 0 y = Ok 0.
Proof.
  intros Hy. unfold py_pow.
  destruct (Rlt_dec 0 0); [lra|].
  destruct (Req_dec_T 0 0); [|lra].
  destruct (Rlt_dec 0 y); [reflexivity | lra].
Qed.

Lemma py_div_nonzero (x y : R) : y <> 0 -> py_div x y = Ok (x / y).
Proof. intros Hy. unfold py_div. destruct (Req_dec_T y 0); [lra | reflexivity]. Qed.

Lemma Rpower_pos (x y : R) : 0 < Rpower x y.
Proof. apply exp_pos. Qed.

Lemma exp_div (x y : R) : exp x / exp y = exp (x - y).
Proof. unfold Rdiv, Rminus. now rewrite exp_plus, exp_Ropp. Qed.

(** The chirp mass divided by [eta ** 0.6] is the total mass. *)
Lemma total_mass_recovered (m1 m2 : R) :
  0 < m1 -> 0 < m2 ->
  Rpower (m1 * m2) (3 / 5) / Rpower (m1 + m2) (1 / 5)
    / Rpower (m1 * m2 / (m1 + m2) ^ 2) (3 / 5) = m1 + m2.
Proof.
  intros H1 H2.
  assert (Hp : 0 < m1 * m2) by nra.
  assert (Hs : 0 < m1 + m2) by lra.
  assert (Hs2 : 0 < (m1 + m2) ^ 2) by (apply pow_lt; assumption).
  assert (Hln : ln (m1 * m2 / (m1 + m2) ^ 2)
                = ln (m1 * m2) - 2 * ln (m1 + m2)).
  { unfold Rdiv.
    rewrite ln_mult by (try apply Rinv_0_lt_compat; assumption).
    rewrite ln_Rinv by assumption. rewrite ln_pow by assumption.
    simpl. lra. }
  unfold Rpower. rewrite Hln.
  rewrite !exp_div.
  transitivity (exp (ln (m1 + m2))); [f_equal; lra | now apply exp_ln].
Qed.

(** [(1 - 4 * eta) ** 0.5] is [|m1 - m2| / (m1 + m2)]. *)
Lemma mass_difference_recovered (m1 m2 : R) :
  0 < m1 -> 0 < m2 ->
  py_pow (1 - 4 * (m1 * m2 / (m1 + m2) ^ 2)) (1 / 2)
    = Ok (Rabs (m1 - m2) / (m1 + m2)).
Proof.
  intros H1 H2.
  assert (Hs : 0 < m1 + m2) by lra.
  assert (Hx : 1 - 4 * (m1 * m2 / (m1 + m2) ^ 2) = Rsqr ((m1 - m2) / (m1 + m2))).
  { unfold Rsqr. field. lra. }
  rewrite Hx.
  destruct (Req_dec_T m1 m2) as [->|Hne].
  - replace ((m2 - m2) / (m2 + m2)) with 0 by (field; lra).
    rewrite Rsqr_0, py_pow_zero by lra.
    f_equal. replace (m2 - m2) with 0 by lra. rewrite Rabs_R0. field. lra.
  - assert (Hd : (m1 - m2) / (m1 + m2) <> 0).
    { intros Hz. apply Hne.
      apply (f_equal (fun t => t * (m1 + m2))) in Hz.
      unfold Rdiv in Hz. rewrite Rmult_assoc, Rinv_l in Hz by lra. lra. }
    rewrite py_pow_pos by (apply Rlt_0_sqr; assumption).
    replace (1 / 2) with (/ 2) by lra.
    rewrite Rpower_sqrt by (apply Rlt_0_sqr; assumption).
    rewrite sqrt_Rsqr_abs. f_equal.
    unfold Rdiv. rewrite Rabs_mult. f_equal.
    apply Rabs_pos_eq. left. now apply Rinv_0_lt_compat.
Qed.

(** C7, as amended: over the reals, in exact arithmetic, for all [m1 > 0]
    and [m2 > 0], [mc_eta_to_m12(m12_to_mc(m1, m2), m12_to_symratio(m1, m2))]
    returns [(max(m1, m2), min(m1, m2))]: the two masses are recovered, the
    larger one first. *)
Theorem mass_round_trip_recovers (m1 m2 : R) :
  0 < m1 -> 0 < m2 ->
  exists mc eta : R,
    m12_to_mc m1 m2 = Ok mc /\
    m12_to_symratio m1 m2 = Ok eta /\
    mc_eta_to_m12 mc eta = Ok (Rmax m1 m2, Rmin m1 m2).
Proof.
  intros H1 H2.
  assert (Hp : 0 < m1 * m2) by nra.
  assert (Hs : 0 < m1 + m2) by lra.
  assert (Hs2 : 0 < (m1 + m2) ^ 2) by (apply pow_lt; assumption).
  assert (Heta : 0 < m1 * m2 / (m1 + m2) ^ 2) by (apply Rdiv_lt_0_compat; assumption).
  exists (Rpower (m1 * m2) (3 / 5) / Rpower (m1 + m2) (1 / 5)),
         (m1 * m2 / (m1 + m2) ^ 2).
  split; [|split].
  - unfold m12_to_mc. rewrite !py_pow_pos by assumption. cbn [bind].
    apply py_div_nonzero. pose proof (Rpower_pos (m1 + m2) (1 / 5)). lra.
  - unfold m12_to_symratio. apply py_div_nonzero. lra.
  - pose proof (Rpower_pos (m1 * m2 / (m1 + m2) ^ 2) (3 / 5)) as Hpow.
    unfold mc_eta_to_m12.
    rewrite py_pow_pos by assumption. cbn [bind].
    rewrite py_div_nonzero by lra. cbn [bind].
    rewrite total_mass_recovered by assumption.
    rewrite mass_difference_recovered by assumption. cbn [bind].
    set (d := Rabs (m1 - m2)).
    replace ((m1 + m2) * (1 + d / (m1 + m2)) / 2) with ((m1 + m2 + d) / 2)
      by (field; lra).
    replace ((m1 + m2) * (1 - d / (m1 + m2)) / 2) with ((m1 + m2 - d) / 2)
      by (field; lra).
    unfold d, Rmax, Rmin, Rabs.
    destruct (Rle_dec m1 m2), (Rcase_abs (m1 - m2)); do 2 f_equal; lra.
Qed.

Lemma mass_round_trip_recovers_witness :
  exists mc eta : R,
    m12_to_mc 1 3 = Ok mc /\
    m12_to_symratio 1 3 = Ok eta /\
    mc_eta_to_m12 mc eta = Ok (Rmax 1 3, Rmin 1 3).
Proof. apply (mass_round_trip_recovers 1 3); lra. Defined.

Open Scope Z_scope.

(** C7 as stated fails in binary64.  For [m1 = 1.0] and
    [m2 = 1.0000000000000002] the symmetric mass ratio rounds to
    [0.25000000000000006], above one quarter, so the base [1 - 4 * eta] of
    the square root on lines 38 and 39 is negative and
    [mc_eta_to_m12] returns a pair of complex numbers, not the two masses.
    For [m1 = m2 = 1e-200] the square of the sum underflows to zero and
    [m12_to_symratio] raises [ZeroDivisionError]. *)
Lemma symratio_rounds_above_quarter :
  m12_to_symratio64 1 1.0000000000000002 = Ok 0.25000000000000006%float /\
  (discriminant64 0.25000000000000006 <? 0)%float = true /\
  m12_to_symratio64 1e-200 1e-200 = Raise ZeroDivisionError.
Proof. repeat split; vm_compute; reflexivity. Qed.

(** ** [nfft] *)

Lemma length_real_dft (x : list R) :
  Z.of_nat (length (real_dft x)) = Z.of_nat (length x) / 2 + 1.
Proof.
  unfold real_dft. rewrite length_fmap, length_seq.
  rewrite Nat2Z.inj_add, Nat2Z.inj_div. reflexivity.
Qed.

Lemma nfft_pad_length (ht : list R) :
  Z.of_nat (length (nfft_pad ht)) =
    if decide (Z.of_nat (length ht) mod 2 = 0)
    then Z.of_nat (length ht) else Z.of_nat (length ht) + 1.
Proof.
  unfold nfft_pad, np_append.
  pose proof (Z.mod_pos_bound (Z.of_nat (length ht)) 2 ltac:(lia)).
  repeat case_decide; try lia.
  rewrite length_app. simpl. lia.
Qed.

Lemma nfft_pad_even (ht : list R) : Z.of_nat (length (nfft_pad ht)) mod 2 = 0.
Proof.
  rewrite nfft_pad_length.
  pose proof (Z.mod_pos_bound (Z.of_nat (length ht)) 2 ltac:(lia)).
  case_decide; [assumption|].
  rewrite Z.add_mod by lia.
  replace (Z.of_nat (length ht) mod 2) with 1 by lia. reflexivity.
Qed.

(** [int(LL / 2 + 1)] is [LL // 2 + 1] for an even length. *)
Lemma py_int_half_plus_one (LL : Z) :
  LL mod 2 = 0 -> py_int (IZR LL / 2 + 1) = LL / 2 + 1.
Proof.
  intros Heven.
  assert (HLL : LL = 2 * (LL / 2)) by (apply Z.div_exact; lia).
  rewrite <- py_int_IZR. f_equal.
  rewrite plus_IZR. rewrite HLL at 1. rewrite mult_IZR. lra.
Qed.

(** The frequency grid: the multiples [i * (fs / 2) / (LL / 2)] for
    [i = 0 .. LL / 2]. *)
Lemma nfft_ff_grid (LL : Z) (fs : R) :
  2 <= LL -> LL mod 2 = 0 ->
  nfft_ff LL fs =
    Ok ((fun i => (IZR i * (fs / 2) / IZR (LL / 2))%R) <$> seqZ 0 (LL / 2 + 1)).
Proof.
  intros HLL Heven. unfold nfft_ff. rewrite py_int_half_plus_one by assumption.
  assert (1 <= LL / 2) by (apply Z.div_le_lower_bound; lia).
  unfold np_linspace. case_decide; [lia|]. case_decide; [lia|].
  cbn [bind]. f_equal. rewrite <- list_fmap_compose.
  unfold np_arange. rewrite Z.sub_0_r.
  apply list_fmap_ext. intros _ i _. simpl.
  replace (LL / 2 + 1 - 1) with (LL / 2) by lia.
  assert (IZR (LL / 2) <> 0%R) by (apply not_0_IZR; lia).
  field. assumption.
Qed.

Lemma seqZ_last (n : Z) : 1 <= n -> last (seqZ 0 n) = Some (n - 1).
Proof.
  intros Hn. rewrite last_lookup, length_seqZ.
  rewrite lookup_seqZ_lt by lia. f_equal. lia.
Qed.

Lemma nfft_ff_empty (fs : R) : nfft_ff 0 fs = Ok [(fs / 2 * 0)%R].
Proof.
  unfold nfft_ff. rewrite py_int_half_plus_one by reflexivity. reflexivity.
Qed.

(** C6, as amended: for every non-empty real time series [ht] of length [N]
    and every sampling frequency [fs > 0], [nfft] appends one zero sample
    when [N] is odd (the transformed length [L] is [N] for even [N] and
    [N + 1] for odd [N]), returns the real-input DFT of the padded series
    divided by [fs], and a frequency grid of [L / 2 + 1] evenly spaced points
    from [0] to [fs / 2] inclusive; spectrum and grid have the same length,
    [N / 2 + 1] for even [N] and [(N + 1) / 2 + 1] for odd [N]. *)
Theorem nfft_spectrum_and_grid (ht : list R) (fs : R) :
  ht <> [] -> (0 < fs)%R ->
  let N := Z.of_nat (length ht) in
  let padded := if decide (N mod 2 = 1) then ht ++ [0%R] else ht in
  let L := Z.of_nat (length padded) in
  exists (hf : list complex) (ff : list R),
    nfft ht fs = Ok (hf, ff) /\
    L = (if decide (N mod 2 = 0) then N else N + 1) /\
    hf = (fun c => Cdiv_R c fs) <$> real_dft padded /\
    ff = (fun i => (IZR i * (fs / 2) / IZR (L / 2))%R) <$> seqZ 0 (L / 2 + 1) /\
    head ff = Some 0%R /\
    last ff = Some (fs / 2)%R /\
    Z.of_nat (length hf) = L / 2 + 1 /\
    Z.of_nat (length ff) = L / 2 + 1 /\
    L / 2 + 1 = (if decide (N mod 2 = 0) then N / 2 + 1 else (N + 1) / 2 + 1).
Proof.
  intros Hne Hfs N padded L.
  assert (HN : 1 <= N) by (destruct ht; [congruence | unfold N; simpl; lia]).
  assert (Hpad : padded = nfft_pad ht) by reflexivity.
  assert (HL : L = if decide (N mod 2 = 0) then N else N + 1)
    by (unfold L; rewrite Hpad; apply nfft_pad_length).
  assert (Heven : L mod 2 = 0) by (unfold L; rewrite Hpad; apply nfft_pad_even).
  assert (HL2 : 2 <= L).
  { destruct (decide (N mod 2 = 0)) as [HNe|_]; [|lia].
    destruct (decide (N = 1)) as [HN1|]; [|lia].
    rewrite HN1 in HNe. discriminate HNe. }
  assert (Hhalf : 1 <= L / 2) by (apply Z.div_le_lower_bound; lia).
  assert (Hnz : IZR (L / 2) <> 0%R) by (apply not_0_IZR; lia).
  exists ((fun c => Cdiv_R c fs) <$> real_dft padded),
         ((fun i => (IZR i * (fs / 2) / IZR (L / 2))%R) <$> seqZ 0 (L / 2 + 1)).
  split; [|split; [|split; [|split; [|split; [|split; [|split; [|split]]]]]]].
  - unfold nfft. rewrite <- Hpad. fold L.
    rewrite nfft_ff_grid by assumption. cbn [bind].
    unfold np_fft_rfft. destruct (decide (length padded < 1)%nat) as [Hlt|_]; [unfold L in HL2; lia|]. reflexivity.
  - exact HL.
  - reflexivity.
  - reflexivity.
  - rewrite seqZ_cons by lia. simpl. f_equal. unfold Rdiv. now rewrite !Rmult_0_l.
  - rewrite fmap_last, seqZ_last by lia. simpl. f_equal.
    replace (L / 2 + 1 - 1) with (L / 2) by lia. field. assumption.
  - rewrite length_fmap. apply length_real_dft.
  - rewrite length_fmap, length_seqZ. lia.
  - rewrite HL. case_decide; reflexivity.
Qed.

(** C6 as stated fails on the empty series: the transform rejects zero data
    points, so [nfft] raises and returns nothing; and the grid computed
    before the transform is the single point [0], which does not reach
    [fs / 2]. *)
Lemma nfft_empty_series_raises :
  nfft [] 1 = Raise ValueError /\
  nfft_ff (Z.of_nat (length (nfft_pad []))) 1 = Ok [(1 / 2 * 0)%R] /\
  ~ (exists (hf : list complex) (ff : list R), nfft [] 1 = Ok (hf, ff)).
Proof.
  assert (Hraise : nfft [] 1 = Raise ValueError).
  { unfold nfft. change (nfft_pad []) with (@nil R). simpl length.
    change (Z.of_nat 0) with 0. now rewrite nfft_ff_empty. }
  split; [assumption|]. split.
  - apply nfft_ff_empty.
  - intros (hf & ff & Hok). rewrite Hraise in Hok. discriminate Hok.
Qed.

Lemma nfft_spectrum_and_grid_witness :
  exists (hf : list complex) (ff : list R),
    nfft [1; 2; 3]%R 4 = Ok (hf, ff) /\
    hf = (fun c => Cdiv_R c 4) <$> real_dft [1; 2; 3; 0]%R /\
    last ff = Some (4 / 2)%R /\
    Z.of_nat (length hf) = 3 /\ Z.of_nat (length ff) = 3.
Proof.
  destruct (nfft_spectrum_and_grid [1; 2; 3]%R 4 ltac:(discriminate)
              ltac:(lra))
    as (hf & ff & Hrun & _ & Hhf & _ & _ & Hlast & Hlhf & Hlff & _).
  exists hf, ff. repeat split; assumption.
Defined.

(** ** [load_sxs_waveform] *)

(** C1: the claim is that with [modes] omitted and every default dataset
    present the call returns the mapping of all modes with degree 2..4.  The
    code does not: the subscript [[:, 1:]] of line 133 is applied to the
    dataset name, a string, so the first iteration raises [TypeError]. *)
Theorem load_default_modes_raises (disk : gmap string archive)
    (file_name extraction : string) (waveform : archive) (grp : group) :
  disk !! file_name = Some waveform ->
  waveform !! extraction = Some grp ->
  (forall ell mm : Z, 2 <= ell <= 4 -> - ell <= mm <= ell ->
     is_Some (grp !! dataset_name ell mm)) ->
  load_sxs_waveform disk file_name None extraction = Raise TypeError.
Proof.
  intros Hfile Hext _.
  unfold load_sxs_waveform, deepdish_io_load. rewrite Hfile. cbn [bind].
  change (py_range 2 5) with [2; 3; 4]. cbn [for_each].
  change (py_range (- 2) (2 + 1)) with [-2; -1; 0; 1; 2]. cbn [for_each].
  unfold dict_getitem at 1. rewrite Hext. reflexivity.
Qed.

Lemma elem_of_default_modes (ell mm : Z) :
  (ell, mm) ∈ default_modes <-> 2 <= ell <= 4 /\ - ell <= mm <= ell.
Proof.
  unfold default_modes, py_range. rewrite list_elem_of_bind. split.
  - intros (l & Hin & Hl). apply list_elem_of_bind in Hin as (m & Hin & Hm).
    apply elem_of_seqZ in Hl, Hm.
    apply list_elem_of_singleton in Hin. injection Hin as -> ->. lia.
  - intros [Hell Hmm]. exists ell. split; [|apply elem_of_seqZ; lia].
    apply list_elem_of_bind. exists mm. split; [|apply elem_of_seqZ; lia].
    now apply list_elem_of_singleton.
Qed.

Lemma full_group_lookup_mode (tbl : ndarray) (lm : Z * Z) :
  lm ∈ default_modes ->
  full_group tbl !! dataset_name lm.1 lm.2 = Some tbl.
Proof.
  intros Hin.
  let l := eval vm_compute in default_modes in
    change default_modes with l in Hin.
  repeat (apply elem_of_cons in Hin as [->|Hin]; [vm_compute; reflexivity|]).
  now apply elem_of_nil in Hin.
Qed.

Lemma full_group_lookup (tbl : ndarray) (ell mm : Z) :
  2 <= ell <= 4 -> - ell <= mm <= ell ->
  full_group tbl !! dataset_name ell mm = Some tbl.
Proof.
  intros Hell Hmm.
  apply (full_group_lookup_mode tbl (ell, mm)), elem_of_default_modes.
  now split.
Qed.

Lemma load_default_modes_raises_witness :
  load_sxs_waveform sample_disk "wave.h5" None "OutermostExtraction.dir"
    = Raise TypeError.
Proof.
  apply (load_default_modes_raises sample_disk "wave.h5"
           "OutermostExtraction.dir"
           {[ "OutermostExtraction.dir" := full_group sample_table ]}
           (full_group sample_table)).
  - reflexivity.
  - reflexivity.
  - intros ell mm Hell Hmm. rewrite full_group_lookup by assumption. eauto.
Defined.

(** The complex series of a table: [real column + 1j * imaginary column]. *)
Lemma mode_series_ok (arr : ndarray) :
  (3 <= ncols arr)%nat ->
  mode_series arr =
    Ok (zip_with Cadd
          (C_of_R <$> ((fun row => nth 1 row 0%R) <$> rows arr))
          ((fun y => Cmul Cj (C_of_R y))
             <$> ((fun row => nth 2 row 0%R) <$> rows arr))).
Proof.
  intros Hc. unfold mode_series, ndarray_column.
  repeat (case_decide; try lia). reflexivity.
Qed.

Lemma load_mode_ok (waveform : archive) (extraction : string) (grp : group)
    (mode : Z * Z) (arr : ndarray) (st : locals) :
  waveform !! extraction = Some grp ->
  grp !! dataset_name mode.1 mode.2 = Some arr ->
  (3 <= ncols arr)%nat ->
  exists h : list complex,
    mode_series arr = Ok h /\
    load_mode waveform extraction mode st =
      Ok {| output := <[mode := h]> (output st); mode_array := Some arr |}.
Proof.
  intros Hext Hds Hc. eexists. split; [now apply mode_series_ok|].
  unfold load_mode, dict_getitem. rewrite Hext. cbn [bind]. rewrite Hds.
  cbn [bind]. rewrite mode_series_ok by assumption. reflexivity.
Qed.

(** The loop over explicit modes: every requested mode ends up in the
    output with the series of its own dataset, no other key changes, and
    [mode_array] is the dataset of the last mode. *)
Lemma load_modes_loop (waveform : archive) (extraction : string) (grp : group)
    (modes : list (Z * Z)) (st : locals) :
  waveform !! extraction = Some grp ->
  (forall lm, lm ∈ modes ->
     exists arr, grp !! dataset_name lm.1 lm.2 = Some arr /\
                 (3 <= ncols arr)%nat) ->
  exists st' : locals,
    for_each modes (load_mode waveform extraction) st = Ok st' /\
    (forall lm, lm ∈ modes ->
       exists arr h, grp !! dataset_name lm.1 lm.2 = Some arr /\
                     mode_series arr = Ok h /\
                     output st' !! lm = Some h) /\
    (forall lm, lm ∉ modes -> output st' !! lm = output st !! lm) /\
    (match last modes with
     | Some lm => exists arr, grp !! dataset_name lm.1 lm.2 = Some arr /\
                              mode_array st' = Some arr
     | None => mode_array st' = mode_array st
     end).
Proof.
  intros Hext. revert st.
  induction modes as [|m modes IH]; intros st Hall.
  - exists st. repeat split; try reflexivity.
    intros lm Hin. now apply elem_of_nil in Hin.
  - destruct (Hall m ltac:(left)) as (arr & Hds & Hc).
    destruct (load_mode_ok waveform extraction grp m arr st Hext Hds Hc)
      as (h & Hh & Hstep).
    destruct (IH {| output := <[m := h]> (output st); mode_array := Some arr |})
      as (st' & Hrun & Hin' & Hout' & Hlast').
    { intros lm Hlm. apply Hall. now right. }
    exists st'. split; [|split; [|split]].
    + cbn [for_each]. rewrite Hstep. exact Hrun.
    + intros lm Hlm. destruct (decide (lm ∈ modes)) as [Hmem|Hnot].
      * now apply Hin'.
      * apply elem_of_cons in Hlm as [->|Hlm]; [|contradiction].
        exists arr, h. repeat split; try assumption.
        rewrite Hout' by assumption. simpl. apply lookup_insert_eq.
    + intros lm Hlm. apply not_elem_of_cons in Hlm as [Hne Hlm].
      rewrite Hout' by assumption. simpl. now apply lookup_insert_ne.
    + destruct modes as [|m' modes'].
      * simpl in *. exists arr. now rewrite Hlast'.
      * change (last (m :: m' :: modes')) with (last (m' :: modes')).
        destruct (last (m' :: modes')) eqn:Hl; [exact Hlast'|].
        apply last_None in Hl. discriminate Hl.
Qed.

(** What the explicit-modes branch returns when every requested dataset is
    present with its three columns: the keys are exactly the requested modes,
    each entry is the series of its dataset, and the times are the first
    column of the last dataset. *)
Lemma load_explicit_modes (disk : gmap string archive)
    (file_name extraction : string) (waveform : archive) (grp : group)
    (modes : list (Z * Z)) :
  disk !! file_name = Some waveform ->
  waveform !! extraction = Some grp ->
  modes <> [] ->
  (forall lm, lm ∈ modes ->
     exists arr, grp !! dataset_name lm.1 lm.2 = Some arr /\
                 (3 <= ncols arr)%nat) ->
  exists (out : gmap (Z * Z) (list complex)) (times : list R),
    load_sxs_waveform disk file_name (Some modes) extraction
      = Ok (out, times) /\
    (forall lm, lm ∈ dom out <-> lm ∈ modes) /\
    (forall lm, lm ∈ modes ->
       exists arr h, grp !! dataset_name lm.1 lm.2 = Some arr /\
                     mode_series arr = Ok h /\ out !! lm = Some h).
Proof.
  intros Hfile Hext Hne Hall.
  destruct (load_modes_loop waveform extraction grp modes
              {| output := ∅; mode_array := None |} Hext Hall)
    as (st' & Hrun & Hin & Hout & Hlast).
  destruct (last modes) as [lm|] eqn:Hl;
    [|apply last_None in Hl; contradiction].
  destruct Hlast as (arr & Hds & Harr).
  destruct (Hall lm) as (arr' & Hds' & Hc).
  { apply last_Some in Hl as [l' ->]. apply elem_of_app. right. left. }
  assert (arr' = arr) as -> by congruence.
  exists (output st'), ((fun row => nth 0 row 0%R) <$> rows arr).
  split; [|split].
  - unfold load_sxs_waveform, deepdish_io_load. rewrite Hfile. cbn [bind].
    rewrite Hrun. cbn [bind]. rewrite Harr.
    unfold ndarray_column. repeat (case_decide; try lia). reflexivity.
  - intros k. rewrite elem_of_dom. split.
    + intros Hsome. destruct (decide (k ∈ modes)) as [|Hnot]; [assumption|].
      rewrite Hout in Hsome by assumption. simpl in Hsome.
      rewrite lookup_empty in Hsome. now destruct Hsome.
    + intros Hk. destruct (Hin k Hk) as (? & h & _ & _ & ->). eauto.
  - exact Hin.
Qed.

(** The sibling path does what the default path was meant to do: with the
    default modes passed explicitly and every default dataset present, the
    keys of the result are exactly the pairs [(ell, m)] with [ell] in 2..4
    and [m] in [-ell..ell]. *)
Lemma load_explicit_default_modes (disk : gmap string archive)
    (file_name extraction : string) (waveform : archive) (grp : group) :
  disk !! file_name = Some waveform ->
  waveform !! extraction = Some grp ->
  (forall ell mm : Z, 2 <= ell <= 4 -> - ell <= mm <= ell ->
     exists arr, grp !! dataset_name ell mm = Some arr /\
                 (3 <= ncols arr)%nat) ->
  exists (out : gmap (Z * Z) (list complex)) (times : list R),
    load_sxs_waveform disk file_name (Some default_modes) extraction
      = Ok (out, times) /\
    (forall ell mm : Z,
       (ell, mm) ∈ dom out <-> 2 <= ell <= 4 /\ - ell <= mm <= ell) /\
    (forall ell mm : Z, 2 <= ell <= 4 -> - ell <= mm <= ell ->
       exists arr h, grp !! dataset_name ell mm = Some arr /\
                     mode_series arr = Ok h /\ out !! (ell, mm) = Some h).
Proof.
  intros Hfile Hext Hall.
  destruct (load_explicit_modes disk file_name extraction waveform grp
              default_modes Hfile Hext)
    as (out & times & Hrun & Hdom & Hval).
  - discriminate.
  - intros [ell mm] Hin. apply elem_of_default_modes in Hin as [Hell Hmm].
    now apply Hall.
  - exists out, times. split; [assumption|]. split.
    + intros ell mm. rewrite Hdom. apply elem_of_default_modes.
    + intros ell mm Hell Hmm.
      apply (Hval (ell, mm)), elem_of_default_modes. now split.
Qed.

Example load_explicit_default_modes_sample :
  exists (out : gmap (Z * Z) (list complex)) (times : list R),
    load_sxs_waveform sample_disk "wave.h5" (Some default_modes)
      "OutermostExtraction.dir" = Ok (out, times) /\
    dom out = list_to_set default_modes /\
    times = [0%R; 1%R].
Proof.
  eexists _, _. split; [vm_compute; reflexivity|].
  split; vm_compute; reflexivity.
Qed.

(** C9: with an explicitly empty [modes] collection the loop body never
    runs, [mode_array] is never assigned, and building the time grid raises
    an unbound-name error instead of returning an empty mode mapping. *)
Theorem load_empty_modes_unbound (disk : gmap string archive)
    (file_name extraction : string) (waveform : archive) :
  disk !! file_name = Some waveform ->
  load_sxs_waveform disk file_name (Some []) extraction
    = Raise (UnboundLocalError "mode_array").
Proof.
  intros Hfile. unfold load_sxs_waveform, deepdish_io_load.
  rewrite Hfile. reflexivity.
Qed.

Lemma load_empty_modes_unbound_witness :
  load_sxs_waveform sample_disk "wave.h5" (Some []) "OutermostExtraction.dir"
    = Raise (UnboundLocalError "mode_array").
Proof.
  apply (load_empty_modes_unbound sample_disk "wave.h5"
           "OutermostExtraction.dir"
           {[ "OutermostExtraction.dir" := full_group sample_table ]}).
  reflexivity.
Defined.

(** ** [get_version_information] *)

(** C8: [get_version_information] reads a single line from the [.version]
    file next to the module; on any I/O failure (an [EnvironmentError], from
    [open] or from [readline]) the exception is caught inside the function,
    the diagnostic message is printed and [None] is returned: the failure is
    not propagated. *)
Theorem version_reader_contains_io_failures (module_file : string)
    (io : string -> file_behaviour) :
  let version_file := os_path_join (os_path_dirname module_file) ".version" in
  (forall line : string,
     io version_file = ReadlineReturns line ->
     get_version_information module_file io
       = {| printed := []; returned := Ok (Some (rstrip line)) |}) /\
  (forall e : exn,
     is_EnvironmentError e = true ->
     io version_file = OpenRaises e \/ io version_file = ReadlineRaises e ->
     get_version_information module_file io
       = {| printed := ["No version information file '.version' found"];
            returned := Ok None |}).
Proof.
  intros version_file. split.
  - intros line Hio. unfold get_version_information.
    fold version_file. now rewrite Hio.
  - intros e He [Hio|Hio]; unfold get_version_information;
      fold version_file; rewrite Hio, He; reflexivity.
Qed.

Lemma version_reader_contains_io_failures_witness :
  get_version_information "/pkg/gwmemory/utils.py"
    (fun path => if decide (path = "/pkg/gwmemory/.version")
                 then OpenRaises FileNotFoundError
                 else ReadlineReturns "0.1.0")
    = {| printed := ["No version information file '.version' found"];
         returned := Ok None |}.
Proof.
  apply (proj2 (version_reader_contains_io_failures "/pkg/gwmemory/utils.py" _)
           FileNotFoundError).
  - reflexivity.
  - left. reflexivity.
Defined.

(** * Further properties of the module *)

(** ** [planck] on every input *)

Lemma sym_window_palindrome (M : Z) (e : R) :
  reverse (sym_window M e) = sym_window M e.
Proof.
  unfold sym_window. cbn zeta.
  rewrite !reverse_app, reverse_involutive, reverse_replicate.
  rewrite <- !app_assoc. reflexivity.
Qed.

Lemma logistic_complement (z : R) : (logistic z + logistic (- z) = 1)%R.
Proof.
  unfold logistic. rewrite exp_Ropp.
  pose proof (exp_pos z) as Hz. field. split; lra.
Qed.

Lemma taper_exponent_mirror (t2 k : Z) :
  0 < k < t2 ->
  (taper_exponent t2 (t2 - k) = - taper_exponent t2 k)%R.
Proof.
  intros Hk. unfold taper_exponent.
  replace (t2 - k - t2) with (- k) by lia.
  rewrite !minus_IZR, opp_IZR.
  assert (IZR k <> 0%R) by (apply not_0_IZR; lia).
  assert (IZR k < IZR t2)%R by (apply IZR_lt; lia).
  field. split; lra.
Qed.

(** X1: what [planck] does for [M >= 3] is decided by the rounded product
    [e * (M' - 1)], with [M'] the internal length ([M + 1] for a periodic
    window of even length, [M] otherwise) and [M' - 1] converted to the
    float [f]: when the product is finite, [planck] returns a window of
    exactly [M] points, and [np.ones] on line 226 never receives a negative
    length; when it is NaN, [planck] raises [ValueError]; when it is
    infinite, [OverflowError].  It holds whatever [np.exp] computes. *)
Theorem planck64_outcome (np_exp : float -> float) (M : Z) (e f : float)
    (sym : bool) :
  3 <= M ->
  py_float_of_int
    ((if negb sym && bool_decide (M mod 2 = 0) then M + 1 else M) - 1)
    = Ok f ->
  (is_finite (e * f)%float = true ->
     exists w : list float,
       planck64 np_exp M e sym = Ok w /\ Z.of_nat (length w) = M) /\
  (is_nan (e * f)%float = true ->
     planck64 np_exp M e sym = Raise ValueError) /\
  (is_infinity (e * f)%float = true ->
     planck64 np_exp M e sym = Raise OverflowError).
Proof.
  intros HM Hf. split; [|split].
  - intros Hfin.
    destruct (half_width64_finite _ e f Hf Hfin) as [t2 Ht].
    pose proof (half_width64_le _ e t2 Ht) as Hle.
    rewrite (planck64_unfold np_exp M e sym t2) by assumption.
    eexists. split; [reflexivity|].
    destruct (negb sym && bool_decide (M mod 2 = 0)).
    + rewrite removelast_firstn_len, length_take, length_window64 by lia.
      lia.
    + rewrite length_window64 by lia. lia.
  - intros Hnan. apply planck64_raises; [assumption|].
    unfold half_width64. rewrite Hf. cbn [bind].
    now rewrite py_int_np_floor64_nan.
  - intros Hinf. apply planck64_raises; [assumption|].
    unfold half_width64. rewrite Hf. cbn [bind].
    now rewrite py_int_np_floor64_infinity.
Qed.

Lemma planck64_outcome_witness :
  (exists w : list float,
     planck64 exp64 4 0.25 false = Ok w /\ Z.of_nat (length w) = 4) /\
  planck64 exp64 4 1e308 false = Raise OverflowError /\
  planck64 exp64 5 nan true = Raise ValueError.
Proof.
  split; [|split].
  - apply (proj1 (planck64_outcome exp64 4 0.25 4 false ltac:(lia)
                    ltac:(vm_compute; reflexivity))).
    vm_compute. reflexivity.
  - apply (proj2 (proj2 (planck64_outcome exp64 4 1e308 4 false ltac:(lia)
                           ltac:(vm_compute; reflexivity)))).
    vm_compute. reflexivity.
  - apply (proj1 (proj2 (planck64_outcome exp64 5 nan 4 true ltac:(lia)
                           ltac:(vm_compute; reflexivity)))).
    vm_compute. reflexivity.
Defined.

(** X2: the symmetric window reads the same in both directions, for every
    [M] and every [e]. *)
Theorem planck_sym_palindrome (M : Z) (e : R) :
  exists w : list R, planck M e true = Ok w /\ reverse w = w.
Proof.
  destruct (decide (M < 3)) as [H3|H3].
  - unfold planck. case_decide; [now exists []|].
    case_decide; [|lia]. rewrite np_ones_nonneg by lia.
    eexists. split; [reflexivity|]. apply reverse_replicate.
  - rewrite planck_unfold by lia. cbn [negb andb].
    eexists. split; [reflexivity|]. apply sym_window_palindrome.
Qed.

(** X3: the periodic window of even length [M] starts with zero and is
    symmetric about its middle when continued periodically: the elements at
    [i] and [M - i] agree for [1 <= i < M]. *)
Theorem planck_periodic_even_symmetry (M : Z) (e : R) :
  3 <= M -> M mod 2 = 0 ->
  exists w : list R,
    planck M e false = Ok w /\
    w !! 0%nat = Some 0%R /\
    forall i : Z, 1 <= i < M -> w !! Z.to_nat i = w !! Z.to_nat (M - i).
Proof.
  intros HM Heven. rewrite planck_unfold by lia.
  rewrite bool_decide_eq_true_2 by assumption. cbn [negb andb].
  eexists. split; [reflexivity|].
  pose proof (length_sym_window (M + 1) e ltac:(lia)) as Hlen.
  rewrite removelast_firstn_len, Hlen.
  split.
  - rewrite lookup_take_lt by lia. reflexivity.
  - intros i Hi. rewrite !lookup_take_lt by lia.
    rewrite <- (sym_window_palindrome (M + 1) e) at 1.
    rewrite reverse_lookup by lia. f_equal. lia.
Qed.

Lemma planck_periodic_even_symmetry_witness :
  exists w : list R,
    planck 4 (1 / 10) false = Ok w /\
    w !! 0%nat = Some 0%R /\
    forall i : Z, 1 <= i < 4 -> w !! Z.to_nat i = w !! Z.to_nat (4 - i).
Proof. apply (planck_periodic_even_symmetry 4 (1 / 10)); [lia | reflexivity]. Defined.

(** X4: in exact arithmetic the taper profile of lines 224 and 225,
    [1 / (exp(t2 / k + t2 / (k - t2)) + 1)], is complementary about the
    centre of the taper: its values at [k] and [t2 - k] add up to one, for
    every half-width [t2] and every [0 < k < t2]. *)
Theorem taper_profile_complementary (t2 k : Z) :
  0 < k < t2 ->
  (logistic (taper_exponent t2 k) + logistic (taper_exponent t2 (t2 - k))
   = 1)%R.
Proof.
  intros Hk. rewrite taper_exponent_mirror by assumption.
  apply logistic_complement.
Qed.

Lemma taper_profile_complementary_witness :
  (logistic (taper_exponent 3 1) + logistic (taper_exponent 3 (3 - 1))
   = 1)%R.
Proof. apply (taper_profile_complementary 3 1). lia. Defined.

(** X5: the symmetric window of [M >= 3] points position by position, in
    binary64, once line 222 has computed the half-width [t2]: with
    [lo = max(1, t2)], the window is [0.0] at position 0 and at position
    [M - 1], the rounded taper value
    [1 / (np.exp(t2 / i + t2 / (i - t2)) + 1)] at [0 < i < lo], [1.0] at
    [lo <= i < M - lo], and the taper value of the mirrored position
    [M - 1 - i] at [M - lo <= i < M - 1]. *)
Theorem planck64_sym_positions (np_exp : float -> float) (M : Z)
    (e : float) (t2 : Z) :
  3 <= M -> half_width64 M e = Ok t2 ->
  let lo := Z.max 1 t2 in
  exists w : list float,
    planck64 np_exp M e true = Ok w /\
    forall i : Z, 0 <= i < M ->
      w !! Z.to_nat i =
        Some (if decide (i = 0) then 0%float
              else if decide (i < lo)
                then (1 / (np_exp (float_of_Z t2 / float_of_Z i
                                   + float_of_Z t2 / float_of_Z (i - t2))
                           + 1))%float
              else if decide (i < M - lo) then 1%float
              else if decide (i < M - 1)
                then (1 / (np_exp (float_of_Z t2 / float_of_Z (M - 1 - i)
                                   + float_of_Z t2
                                     / float_of_Z (M - 1 - i - t2))
                           + 1))%float
              else 0%float).
Proof.
  intros HM Ht lo. pose proof (half_width64_le M e t2 Ht) as Hle.
  exists (window64 np_exp M t2). split.
  - rewrite (planck64_unfold np_exp M e true t2) by assumption. reflexivity.
  - intros i Hi. rewrite window64_lookup by lia. reflexivity.
Qed.

Lemma planck64_sym_positions_witness :
  exists w : list float,
    planck64 exp64 11 0.3 true = Ok w /\
    w !! Z.to_nat 2 =
      Some (1 / (exp64 (float_of_Z 3 / float_of_Z 2
                        + float_of_Z 3 / float_of_Z (2 - 3)) + 1))%float /\
    w !! Z.to_nat 3 = Some 1%float.
Proof.
  destruct (planck64_sym_positions exp64 11 0.3 3 ltac:(lia)
              ltac:(vm_compute; reflexivity)) as (w & Hw & Hpos).
  exists w. split; [exact Hw|]. split.
  - apply (Hpos 2). lia.
  - apply (Hpos 3). lia.
Defined.

(** X6: when the half-width computed on line 222 is at most one, no taper
    remains: the symmetric window of [M >= 3] points is a boxcar of ones
    with only its first and last element set to zero. *)
Theorem planck64_sym_without_taper (np_exp : float -> float) (M : Z)
    (e : float) (t2 : Z) :
  3 <= M -> half_width64 M e = Ok t2 -> t2 <= 1 ->
  planck64 np_exp M e true
    = Ok ([0%float] ++ replicate (Z.to_nat (M - 2)) 1%float ++ [0%float]).
Proof.
  intros HM Ht Hsmall.
  rewrite (planck64_unfold np_exp M e true t2) by assumption.
  cbn [negb andb]. f_equal. unfold window64. cbn zeta. unfold np_arange.
  rewrite seqZ_nil by lia. simpl.
  replace (M - 2 - Z.of_nat 0 * 2) with (M - 2) by lia. reflexivity.
Qed.

Lemma planck64_sym_without_taper_witness :
  planck64 exp64 5 (-1) true
    = Ok ([0%float] ++ replicate (Z.to_nat (5 - 2)) 1%float ++ [0%float]).
Proof.
  apply (planck64_sym_without_taper exp64 5 (-1) (-4));
    [lia | vm_compute; reflexivity | lia].
Defined.

(** X7: when the half-width computed on line 222 is [M // 2] (the product
    [e * (M - 1)] is [M // 2] or more), the flat interior built on line 226
    has [M mod 2] points: a symmetric window of odd length keeps a single
    [1.0] in the middle, one of even length has none from [np.ones]. *)
Theorem planck64_sym_saturated (np_exp : float -> float) (M : Z)
    (e : float) :
  3 <= M -> half_width64 M e = Ok (M / 2) ->
  let w1 := (fun k => logistic64 np_exp (taper_exponent64 (M / 2) k))
              <$> np_arange 1 (M / 2) in
  planck64 np_exp M e true
    = Ok ([0%float] ++ w1 ++ replicate (Z.to_nat (M mod 2)) 1%float
            ++ reverse w1 ++ [0%float]).
Proof.
  intros HM Ht w1.
  rewrite (planck64_unfold np_exp M e true (M / 2)) by assumption.
  cbn [negb andb]. f_equal. unfold window64. cbn zeta. fold w1.
  do 3 f_equal. unfold w1. rewrite length_rising64.
  pose proof (Z.div_mod M 2 ltac:(lia)) as HMd.
  assert (1 <= M / 2) by (apply Z.div_le_lower_bound; lia).
  f_equal. lia.
Qed.

Lemma planck64_sym_saturated_witness :
  planck64 exp64 5 0.5 true
    = Ok ([0%float]
            ++ ((fun k => logistic64 exp64 (taper_exponent64 (5 / 2) k))
                  <$> np_arange 1 (5 / 2))
            ++ replicate (Z.to_nat (5 mod 2)) 1%float
            ++ reverse ((fun k => logistic64 exp64
                                    (taper_exponent64 (5 / 2) k))
                          <$> np_arange 1 (5 / 2))
            ++ [0%float]).
Proof.
  apply (planck64_sym_saturated exp64 5 0.5);
    [lia | vm_compute; reflexivity].
Defined.

(** ** Mass parameters and units *)

Open Scope R_scope.

Lemma CC_pos : 0 < CC.
Proof. unfold CC. lra. Qed.

Lemma GG_pos : 0 < GG.
Proof. unfold GG. lra. Qed.

Lemma SOLAR_MASS_pos : 0 < SOLAR_MASS.
Proof.
  unfold SOLAR_MASS. apply Rmult_lt_0_compat; [lra|]. apply pow_lt. lra.
Qed.

Lemma KG_pos : 0 < KG.
Proof. unfold KG. apply Rdiv_lt_0_compat; [lra | apply SOLAR_MASS_pos]. Qed.

Lemma CC2_pos : 0 < CC ^ 2.
Proof. apply pow_lt, CC_pos. Qed.

(** X8: over the reals, in exact arithmetic, the symmetric mass ratio of
    two positive masses is defined and lies in (0, 1/4]; it equals 1/4
    exactly for equal masses. *)
Theorem symratio_range (m1 m2 : R) :
  0 < m1 -> 0 < m2 ->
  exists eta : R,
    m12_to_symratio m1 m2 = Ok eta /\
    0 < eta <= 1 / 4 /\
    (eta = 1 / 4 <-> m1 = m2).
Proof.
  intros H1 H2.
  assert (Hs : 0 < m1 + m2) by lra.
  assert (Hs2 : 0 < (m1 + m2) ^ 2) by (apply pow_lt; assumption).
  exists (m1 * m2 / (m1 + m2) ^ 2).
  split; [apply py_div_nonzero; lra|].
  assert (Hdiff : 1 / 4 - m1 * m2 / (m1 + m2) ^ 2
                  = (m1 - m2) ^ 2 / (4 * (m1 + m2) ^ 2)) by (field; lra).
  assert (Hq : 0 <= (m1 - m2) ^ 2 / (4 * (m1 + m2) ^ 2)).
  { apply Rmult_le_pos; [apply pow2_ge_0|]. left. apply Rinv_0_lt_compat. lra. }
  split; [split|].
  - apply Rdiv_lt_0_compat; [nra | assumption].
  - lra.
  - split.
    + intros Heq. rewrite Heq, Rminus_diag in Hdiff.
      symmetry in Hdiff.
      apply (f_equal (fun t => t * (4 * (m1 + m2) ^ 2))) in Hdiff.
      unfold Rdiv in Hdiff. rewrite Rmult_assoc, Rinv_l, Rmult_0_l in Hdiff by lra.
      nra.
    + intros ->. field. lra.
Qed.

Lemma symratio_range_witness :
  exists eta : R,
    m12_to_symratio 1 3 = Ok eta /\
    0 < eta <= 1 / 4 /\
    (eta = 1 / 4 <-> 1 = 3).
Proof. apply (symratio_range 1 3); lra. Defined.

(** X9: the divisions by zero of the mass conversions: a zero symmetric
    ratio in [mc_eta_to_m12], masses that cancel in [m12_to_symratio], and
    two zero masses in [m12_to_mc] all raise [ZeroDivisionError]. *)
Theorem mass_parameters_zero_division :
  (forall mc : R, mc_eta_to_m12 mc 0 = Raise ZeroDivisionError) /\
  (forall m : R, m12_to_symratio m (- m) = Raise ZeroDivisionError) /\
  m12_to_mc 0 0 = Raise ZeroDivisionError.
Proof.
  assert (Hdiv0 : forall x, py_div x 0 = Raise ZeroDivisionError).
  { intros x. unfold py_div. destruct (Req_dec_T 0 0); [reflexivity|lra]. }
  split; [|split].
  - intros mc. unfold mc_eta_to_m12.
    rewrite py_pow_zero by lra. cbn [bind]. now rewrite Hdiv0.
  - intros m. unfold m12_to_symratio.
    replace ((m + - m) ^ 2) with 0 by (simpl; lra). apply Hdiv0.
  - unfold m12_to_mc. rewrite Rmult_0_l, Rplus_0_l.
    rewrite !py_pow_zero by lra. cbn [bind]. apply Hdiv0.
Qed.

Lemma m12_to_mc_value (m1 m2 : R) :
  0 < m1 -> 0 < m2 ->
  m12_to_mc m1 m2 = Ok (Rpower (m1 * m2) (3 / 5) / Rpower (m1 + m2) (1 / 5)).
Proof.
  intros H1 H2. unfold m12_to_mc.
  rewrite !py_pow_pos by nra. cbn [bind].
  pose proof (Rpower_pos (m1 + m2) (1 / 5)). apply py_div_nonzero. lra.
Qed.

Lemma m12_to_mc_scaled (k m1 m2 : R) :
  0 < k -> 0 < m1 -> 0 < m2 ->
  m12_to_mc (k * m1) (k * m2)
    = Ok (k * (Rpower (m1 * m2) (3 / 5) / Rpower (m1 + m2) (1 / 5))).
Proof.
  intros Hk H1 H2.
  assert (Hp : 0 < m1 * m2) by nra.
  assert (Hs : 0 < m1 + m2) by lra.
  rewrite m12_to_mc_value by (apply Rmult_lt_0_compat; assumption).
  f_equal.
  replace (k * m1 * (k * m2)) with (k * k * (m1 * m2)) by ring.
  replace (k * m1 + k * m2) with (k * (m1 + m2)) by ring.
  unfold Rpower.
  rewrite !ln_mult by (try assumption; nra).
  rewrite !exp_div.
  transitivity (exp (ln k)
                * exp (3 / 5 * (ln m1 + ln m2) - 1 / 5 * ln (m1 + m2)));
    [|now rewrite exp_ln].
  rewrite <- exp_plus. f_equal. lra.
Qed.

Lemma m12_to_symratio_scaled (k m1 m2 : R) :
  0 < k -> 0 < m1 -> 0 < m2 ->
  m12_to_symratio (k * m1) (k * m2) = m12_to_symratio m1 m2.
Proof.
  intros Hk H1 H2. unfold m12_to_symratio.
  assert (0 < k * m1 + k * m2) by nra.
  rewrite !py_div_nonzero by nra. f_equal. field. lra.
Qed.

(** X10: rescaling both masses by [k > 0] (a change of mass unit) rescales
    the chirp mass by [k] and leaves the symmetric mass ratio unchanged. *)
Theorem mass_parameters_scaling (k m1 m2 : R) :
  0 < k -> 0 < m1 -> 0 < m2 ->
  exists mc : R,
    m12_to_mc m1 m2 = Ok mc /\
    m12_to_mc (k * m1) (k * m2) = Ok (k * mc) /\
    m12_to_symratio (k * m1) (k * m2) = m12_to_symratio m1 m2.
Proof.
  intros Hk H1 H2. eexists. split; [now apply m12_to_mc_value|]. split.
  - now apply m12_to_mc_scaled.
  - now apply m12_to_symratio_scaled.
Qed.

Lemma mass_parameters_scaling_witness :
  exists mc : R,
    m12_to_mc 1 3 = Ok mc /\
    m12_to_mc (2 * 1) (2 * 3) = Ok (2 * mc) /\
    m12_to_symratio (2 * 1) (2 * 3) = m12_to_symratio 1 3.
Proof. apply (mass_parameters_scaling 2 1 3); lra. Defined.

(** [x ** 0.5] on a non-negative base is the square root. *)
Lemma py_pow_half (x : R) : 0 <= x -> py_pow x (1 / 2) = Ok (sqrt x).
Proof.
  intros [Hpos|<-].
  - rewrite py_pow_pos by assumption. f_equal.
    replace (1 / 2) with (/ 2) by lra. now apply Rpower_sqrt.
  - rewrite py_pow_zero by lra. now rewrite sqrt_0.
Qed.

(** X11: the other direction of the round trip: for [mc > 0] and [eta] in
    (0, 1/4], [mc_eta_to_m12] returns masses with [m1 >= m2 > 0] whose chirp
    mass is [mc] and whose symmetric ratio is [eta]. *)
Theorem mc_eta_round_trip (mc eta : R) :
  0 < mc -> 0 < eta <= 1 / 4 ->
  exists m1 m2 : R,
    mc_eta_to_m12 mc eta = Ok (m1, m2) /\
    0 < m2 <= m1 /\
    m12_to_mc m1 m2 = Ok mc /\
    m12_to_symratio m1 m2 = Ok eta.
Proof.
  intros Hmc [Heta0 Heta1].
  pose proof (Rpower_pos eta (3 / 5)) as HP.
  set (P := Rpower eta (3 / 5)) in *.
  set (q := mc / P).
  assert (Hq : 0 < q) by (apply Rdiv_lt_0_compat; assumption).
  set (r := sqrt (1 - 4 * eta)).
  assert (Hrr : r * r = 1 - 4 * eta) by (apply sqrt_sqrt; lra).
  assert (Hr0 : 0 <= r) by apply sqrt_pos.
  assert (Hr1 : r < 1) by nra.
  exists (q * (1 + r) / 2), (q * (1 - r) / 2).
  assert (Hprod : q * (1 + r) / 2 * (q * (1 - r) / 2) = q * q * eta).
  { replace (q * (1 + r) / 2 * (q * (1 - r) / 2))
      with (q * q * (1 - r * r) / 4) by field.
    rewrite Hrr. field. }
  assert (Hsum : q * (1 + r) / 2 + q * (1 - r) / 2 = q) by field.
  assert (Hqq : 0 < q * q * eta)
    by (apply Rmult_lt_0_compat; [apply Rmult_lt_0_compat|]; assumption).
  split; [|split; [|split]].
  - unfold mc_eta_to_m12.
    rewrite py_pow_pos by assumption. cbn [bind]. fold P.
    rewrite py_div_nonzero by lra. cbn [bind]. fold q.
    rewrite py_pow_half by lra. reflexivity.
  - split; [|nra]. apply Rdiv_lt_0_compat; [|lra].
    apply Rmult_lt_0_compat; lra.
  - unfold m12_to_mc. rewrite Hprod, Hsum.
    rewrite !py_pow_pos by assumption. cbn [bind].
    pose proof (Rpower_pos q (1 / 5)).
    rewrite py_div_nonzero by lra. f_equal.
    transitivity (q * P); [|unfold q; field; lra].
    unfold P, Rpower.
    rewrite !ln_mult by (try assumption; nra).
    rewrite exp_div.
    rewrite <- (exp_ln q Hq) at 4. rewrite <- exp_plus. f_equal. lra.
  - unfold m12_to_symratio. rewrite Hprod, Hsum.
    rewrite py_div_nonzero by nra. f_equal. field. lra.
Qed.

Lemma mc_eta_round_trip_witness :
  exists m1 m2 : R,
    mc_eta_to_m12 2 (1 / 4) = Ok (m1, m2) /\
    0 < m2 <= m1 /\
    m12_to_mc m1 m2 = Ok 2 /\
    m12_to_symratio m1 m2 = Ok (1 / 4).
Proof. apply (mc_eta_round_trip 2 (1 / 4)); lra. Defined.

(** X12: converting two positive masses from solar masses to geometric
    units and then taking the chirp mass gives the converted chirp mass; the
    symmetric ratio is the same in both unit systems. *)
Theorem chirp_mass_commutes_with_units (m1 m2 : R) :
  0 < m1 -> 0 < m2 ->
  exists g1 g2 mc gmc : R,
    m_sol_to_geo m1 = Ok g1 /\
    m_sol_to_geo m2 = Ok g2 /\
    m12_to_mc m1 m2 = Ok mc /\
    m_sol_to_geo mc = Ok gmc /\
    m12_to_mc g1 g2 = Ok gmc /\
    m12_to_symratio g1 g2 = m12_to_symratio m1 m2.
Proof.
  intros H1 H2.
  pose proof KG_pos. pose proof GG_pos. pose proof CC_pos. pose proof CC2_pos.
  set (k := GG / (KG * CC ^ 2)).
  assert (Hk : 0 < k).
  { apply Rdiv_lt_0_compat; [assumption|]. apply Rmult_lt_0_compat; assumption. }
  assert (Hgeo : forall x, m_sol_to_geo x = Ok (k * x)).
  { intros x. unfold m_sol_to_geo. rewrite py_div_nonzero by lra. cbn [bind].
    rewrite py_div_nonzero by lra. f_equal. unfold k. field. split; lra. }
  eexists _, _, _, _.
  split; [apply Hgeo|]. split; [apply Hgeo|].
  split; [now apply m12_to_mc_value|].
  split; [apply Hgeo|]. split.
  - now apply m12_to_mc_scaled.
  - now apply m12_to_symratio_scaled.
Qed.

Lemma chirp_mass_commutes_with_units_witness :
  exists g1 g2 mc gmc : R,
    m_sol_to_geo 30 = Ok g1 /\
    m_sol_to_geo 20 = Ok g2 /\
    m12_to_mc 30 20 = Ok mc /\
    m_sol_to_geo mc = Ok gmc /\
    m12_to_mc g1 g2 = Ok gmc /\
    m12_to_symratio g1 g2 = m12_to_symratio 30 20.
Proof. apply (chirp_mass_commutes_with_units 30 20); lra. Defined.

(** X13: the unit conversions are mutually inverse and never divide by
    zero: solar masses to geometric units and back, seconds to geometric time
    and back, Hz to geometric frequency and back, in both orders. *)
Theorem unit_conversions_round_trip (x : R) :
  (exists g : R, m_sol_to_geo x = Ok g /\ m_geo_to_sol g = Ok x) /\
  (exists s : R, m_geo_to_sol x = Ok s /\ m_sol_to_geo s = Ok x) /\
  time_geo_to_s (time_s_to_geo x) = Ok x /\
  (exists s : R, time_geo_to_s x = Ok s /\ time_s_to_geo s = x) /\
  freq_Hz_to_geo (freq_geo_to_Hz x) = Ok x /\
  (exists g : R, freq_Hz_to_geo x = Ok g /\ freq_geo_to_Hz g = x).
Proof.
  pose proof KG_pos. pose proof GG_pos. pose proof CC2_pos.
  pose proof CC_pos.
  split; [|split].
  - exists (x / KG * GG / CC ^ 2). split.
    + unfold m_sol_to_geo. rewrite py_div_nonzero by lra. cbn [bind].
      now rewrite py_div_nonzero by lra.
    + unfold m_geo_to_sol. rewrite py_div_nonzero by lra. cbn [bind].
      f_equal. field. repeat split; lra.
  - exists (x * KG / GG * CC ^ 2). split.
    + unfold m_geo_to_sol. now rewrite py_div_nonzero by lra.
    + unfold m_sol_to_geo. rewrite py_div_nonzero by lra. cbn [bind].
      rewrite py_div_nonzero by lra. f_equal. field. repeat split; lra.
  - unfold time_geo_to_s, time_s_to_geo, freq_Hz_to_geo, freq_geo_to_Hz.
    rewrite !py_div_nonzero by lra.
    repeat split.
    + f_equal. field. lra.
    + eexists. split; [reflexivity|]. field. lra.
    + f_equal. field. lra.
    + eexists. split; [reflexivity|]. field. lra.
Qed.

(** X14: [METRE] and [SECOND] are the scales of one solar mass:
    [m_sol_to_geo(x)] is [x / METRE], that length expressed as a time is
    [x / SECOND], and [KG] is the inverse of the solar mass. *)
Theorem solar_mass_scales (x : R) :
  m_sol_to_geo x = Ok (x / METRE)%R /\
  time_geo_to_s (x / METRE) = Ok (x / SECOND)%R /\
  (KG * SOLAR_MASS = 1)%R.
Proof.
  pose proof KG_pos. pose proof GG_pos. pose proof CC_pos.
  pose proof CC2_pos. pose proof SOLAR_MASS_pos.
  split; [|split].
  - unfold m_sol_to_geo. rewrite py_div_nonzero by lra. cbn [bind].
    rewrite py_div_nonzero by lra. f_equal.
    unfold METRE, KG. field. repeat split; lra.
  - unfold time_geo_to_s. rewrite py_div_nonzero by lra. f_equal.
    unfold SECOND, METRE. field. repeat split; lra.
  - unfold KG. field. lra.
Qed.

Open Scope Z_scope.

(** ** [nfft] on non-empty series *)

(** What [nfft] returns on a non-empty series. *)
Lemma nfft_nonempty (ht : list R) (fs : R) :
  ht <> [] ->
  let L := Z.of_nat (length (nfft_pad ht)) in
  2 <= L /\ L mod 2 = 0 /\
  nfft ht fs =
    Ok ((fun c => Cdiv_R c fs) <$> real_dft (nfft_pad ht),
        (fun i => (IZR i * (fs / 2) / IZR (L / 2))%R) <$> seqZ 0 (L / 2 + 1)).
Proof.
  intros Hne L.
  assert (HN : 1 <= Z.of_nat (length ht)) by (destruct ht; [congruence | simpl; lia]).
  assert (Heven : L mod 2 = 0) by apply nfft_pad_even.
  assert (HL2 : 2 <= L).
  { pose proof (nfft_pad_length ht) as HL. fold L in HL.
    destruct (decide (Z.of_nat (length ht) mod 2 = 0)) as [He|_]; [|lia].
    destruct (decide (Z.of_nat (length ht) = 1)) as [H1|]; [|lia].
    rewrite H1 in He. discriminate He. }
  split; [assumption|]. split; [assumption|].
  unfold nfft. fold L. rewrite nfft_ff_grid by assumption. cbn [bind].
  unfold np_fft_rfft.
  destruct (decide (length (nfft_pad ht) < 1)%nat) as [Hlt|_];
    [unfold L in HL2; lia | reflexivity].
Qed.

(** X15: on an odd-length series [nfft] returns exactly what it returns on
    the same series with one zero appended by the caller. *)
Theorem nfft_odd_length_is_zero_padded (ht : list R) (fs : R) :
  Z.of_nat (length ht) mod 2 = 1 ->
  nfft ht fs = nfft (ht ++ [0%R]) fs.
Proof.
  intros Hodd.
  assert (Hpad : nfft_pad (ht ++ [0%R]) = nfft_pad ht).
  { unfold nfft_pad, np_append. rewrite length_app. simpl.
    destruct (decide (Z.of_nat (length ht) mod 2 = 1)) as [_|Hn]; [|contradiction].
    destruct (decide (Z.of_nat (length ht + 1) mod 2 = 1)) as [Hbad|_];
      [|reflexivity].
    rewrite Nat2Z.inj_add, Z.add_mod, Hodd in Hbad by lia.
    discriminate Hbad. }
  unfold nfft. now rewrite Hpad.
Qed.

Lemma nfft_odd_length_is_zero_padded_witness :
  nfft [1; 2; 3]%R 4 = nfft ([1; 2; 3]%R ++ [0%R]) 4.
Proof. apply (nfft_odd_length_is_zero_padded [1; 2; 3]%R 4). reflexivity. Defined.

(** X16: for a non-empty series and [fs > 0] the frequency grid is strictly
    increasing with the constant spacing [fs / L], [L] the padded length. *)
Theorem nfft_frequency_grid_increasing (ht : list R) (fs : R) :
  ht <> [] -> (0 < fs)%R ->
  exists (hf : list complex) (ff : list R),
    nfft ht fs = Ok (hf, ff) /\
    forall (i : nat) (a b : R),
      ff !! i = Some a -> ff !! S i = Some b ->
      (b - a = fs / IZR (Z.of_nat (length (nfft_pad ht))))%R /\ (a < b)%R.
Proof.
  intros Hne Hfs.
  destruct (nfft_nonempty ht fs Hne) as (HL2 & Heven & Hrun).
  eexists _, _. split; [exact Hrun|]. clear Hrun.
  set (L := Z.of_nat (length (nfft_pad ht))) in *.
  intros i a b Ha Hb.
  rewrite list_lookup_fmap in Ha, Hb.
  destruct (seqZ 0 (L / 2 + 1) !! i) as [zi|] eqn:Hi; [|discriminate Ha].
  destruct (seqZ 0 (L / 2 + 1) !! S i) as [zj|] eqn:Hj; [|discriminate Hb].
  apply lookup_seqZ in Hi as [-> _]. apply lookup_seqZ in Hj as [-> _].
  simpl in Ha, Hb. injection Ha as <-. injection Hb as <-.
  assert (HLd : L = 2 * (L / 2)) by (apply Z.div_exact; lia).
  assert (Hhalf : (0 < IZR (L / 2))%R) by (apply IZR_lt; lia).
  assert (HLR : IZR L = (2 * IZR (L / 2))%R).
  { rewrite HLd at 1. now rewrite mult_IZR. }
  assert (Hstep : (IZR (0 + Z.of_nat (S i)) * (fs / 2) / IZR (L / 2)
                   - IZR (0 + Z.of_nat i) * (fs / 2) / IZR (L / 2)
                   = fs / IZR L)%R).
  { rewrite HLR. rewrite Nat2Z.inj_succ, !Z.add_0_l, succ_IZR. field. lra. }
  split; [exact Hstep|].
  assert (0 < fs / IZR L)%R by (apply Rdiv_lt_0_compat; lra).
  lra.
Qed.

Lemma nfft_frequency_grid_increasing_witness :
  exists (hf : list complex) (ff : list R),
    nfft [1; 2; 3]%R 4 = Ok (hf, ff) /\
    forall (i : nat) (a b : R),
      ff !! i = Some a -> ff !! S i = Some b ->
      (b - a = 4 / IZR (Z.of_nat (length (nfft_pad [1; 2; 3]%R))))%R /\
      (a < b)%R.
Proof.
  apply (nfft_frequency_grid_increasing [1; 2; 3]%R 4); [discriminate | lra].
Defined.

Lemma Csum_zeros (l : list complex) :
  Forall (fun c => c = (0%R, 0%R)) l -> Csum l = (0%R, 0%R).
Proof.
  induction 1 as [|c l -> _ IH]; [reflexivity|].
  unfold Csum in *. simpl. rewrite IH. unfold Cadd. simpl.
  f_equal; lra.
Qed.

Lemma dft_coeff_zeros (n k : nat) :
  dft_coeff (replicate n 0%R) k = (0%R, 0%R).
Proof.
  unfold dft_coeff. apply Csum_zeros. apply Forall_lookup.
  intros j c Hc. rewrite list_lookup_imap in Hc.
  destruct (replicate n 0%R !! j) as [x|] eqn:Hx; [|discriminate Hc].
  apply lookup_replicate in Hx as [-> _]. simpl in Hc. injection Hc as <-.
  unfold Cmul, C_of_R. simpl. f_equal; lra.
Qed.

Lemma nfft_pad_zeros (n : nat) :
  exists n' : nat, nfft_pad (replicate n 0%R) = replicate n' 0%R.
Proof.
  unfold nfft_pad, np_append. case_decide.
  - exists (S n). rewrite replicate_S_end. reflexivity.
  - exists n. reflexivity.
Qed.

(** X17: a non-empty all-zero series and a non-zero sampling frequency give
    an all-zero spectrum, as long as the frequency grid. *)
Theorem nfft_zero_series (n : nat) (fs : R) :
  (1 <= n)%nat -> fs <> 0%R ->
  exists (hf : list complex) (ff : list R),
    nfft (replicate n 0%R) fs = Ok (hf, ff) /\
    Forall (fun c => c = (0%R, 0%R)) hf /\
    length hf = length ff.
Proof.
  intros Hn Hfs.
  assert (Hne : replicate n 0%R <> []) by (destruct n; [lia | discriminate]).
  destruct (nfft_nonempty (replicate n 0%R) fs Hne) as (HL2 & Heven & Hrun).
  eexists _, _. split; [exact Hrun|]. split.
  - destruct (nfft_pad_zeros n) as [n' ->].
    apply Forall_fmap, Forall_fmap, Forall_forall. intros k _. simpl.
    rewrite dft_coeff_zeros. unfold Cdiv_R. simpl.
    f_equal; unfold Rdiv; apply Rmult_0_l.
  - apply Nat2Z.inj. rewrite !length_fmap, length_real_dft, length_seqZ.
    rewrite Z2Nat.id; [reflexivity|].
    apply Z.add_nonneg_nonneg; [apply Z.div_pos|]; lia.
Qed.

Lemma nfft_zero_series_witness :
  exists (hf : list complex) (ff : list R),
    nfft (replicate 3 0%R) 4 = Ok (hf, ff) /\
    Forall (fun c => c = (0%R, 0%R)) hf /\
    length hf = length ff.
Proof. apply (nfft_zero_series 3 4); [lia | lra]. Defined.

Lemma dft_coeff_dc_gen (n : nat) (l : list R) :
  Csum (imap (fun j xj => Cmul (C_of_R xj) (twiddle n 0 j)) l)
    = (foldr Rplus 0%R l, 0%R).
Proof.
  assert (Htw : forall j, twiddle n 0 j = (1%R, (- 0)%R)).
  { intros j. unfold twiddle.
    replace (2 * PI * INR j * INR 0 / INR n)%R with 0%R
      by (simpl; unfold Rdiv; ring).
    now rewrite cos_0, sin_0. }
  transitivity (Csum ((fun xj => (xj, 0%R)) <$> l)).
  - f_equal. rewrite <- imap_const. apply imap_ext.
    intros j x _. rewrite Htw. unfold Cmul, C_of_R, const. simpl.
    f_equal; lra.
  - induction l as [|x l IH]; [reflexivity|].
    rewrite fmap_cons. unfold Csum. cbn [foldr].
    fold (Csum ((fun xj => (xj, 0%R)) <$> l)). rewrite IH.
    unfold Cadd. simpl. f_equal; lra.
Qed.

(** X18: the zero-frequency bin of the spectrum is the sum of the samples
    divided by the sampling frequency, with zero imaginary part, and the
    frequency grid starts at zero. *)
Theorem nfft_zero_frequency_bin (ht : list R) (fs : R) :
  ht <> [] -> fs <> 0%R ->
  exists (hf : list complex) (ff : list R),
    nfft ht fs = Ok (hf, ff) /\
    hf !! 0%nat = Some ((foldr Rplus 0 ht / fs)%R, 0%R) /\
    ff !! 0%nat = Some 0%R.
Proof.
  intros Hne Hfs.
  destruct (nfft_nonempty ht fs Hne) as (HL2 & Heven & Hrun).
  eexists _, _. split; [exact Hrun|]. split.
  - rewrite list_lookup_fmap. unfold real_dft. rewrite list_lookup_fmap.
    rewrite lookup_seq_lt by lia. simpl.
    unfold dft_coeff. rewrite dft_coeff_dc_gen. unfold Cdiv_R. simpl.
    do 2 f_equal; [|unfold Rdiv; apply Rmult_0_l].
    f_equal. unfold nfft_pad, np_append. case_decide; [|reflexivity].
    rewrite foldr_app. simpl. rewrite Rplus_0_l. reflexivity.
  - assert (0 <= Z.of_nat (length (nfft_pad ht)) / 2)
      by (apply Z.div_pos; lia).
    rewrite list_lookup_fmap, lookup_seqZ_lt by lia. simpl.
    f_equal. unfold Rdiv. now rewrite !Rmult_0_l.
Qed.

Lemma nfft_zero_frequency_bin_witness :
  exists (hf : list complex) (ff : list R),
    nfft [1; 2; 3]%R 4 = Ok (hf, ff) /\
    hf !! 0%nat = Some ((foldr Rplus 0 [1; 2; 3] / 4)%R, 0%R) /\
    ff !! 0%nat = Some 0%R.
Proof. apply (nfft_zero_frequency_bin [1; 2; 3]%R 4); [discriminate | lra]. Defined.

(** ** [load_sxs_waveform] with explicit modes *)

Lemma for_each_app {A S : Type} (xs ys : list A) (body : A -> S -> result S)
    (s : S) :
  for_each (xs ++ ys) body s = (s' <- for_each xs body s ;; for_each ys body s').
Proof.
  revert s. induction xs as [|x xs IH]; intros s; [reflexivity|].
  simpl. destruct (body x s) as [s1|e]; simpl; [apply IH | reflexivity].
Qed.

(** X19: with a non-empty explicit list of modes whose datasets are all
    present with three columns, the call returns a mapping whose keys are
    exactly the requested modes, each entry being the complex series of its
    own dataset, together with the time column of the dataset of the last
    requested mode (the time grids of the other modes are not compared). *)
Theorem load_explicit_modes_result (disk : gmap string archive)
    (file_name extraction : string) (waveform : archive) (grp : group)
    (modes : list (Z * Z)) (lm : Z * Z) :
  disk !! file_name = Some waveform ->
  waveform !! extraction = Some grp ->
  last modes = Some lm ->
  (forall k, k ∈ modes ->
     exists arr, grp !! dataset_name k.1 k.2 = Some arr /\
                 (3 <= ncols arr)%nat) ->
  exists (out : gmap (Z * Z) (list complex)) (arr : ndarray),
    grp !! dataset_name lm.1 lm.2 = Some arr /\
    load_sxs_waveform disk file_name (Some modes) extraction
      = Ok (out, (fun row => nth 0 row 0%R) <$> rows arr) /\
    (forall k, k ∈ dom out <-> k ∈ modes) /\
    (forall k, k ∈ modes ->
       exists a h, grp !! dataset_name k.1 k.2 = Some a /\
                   mode_series a = Ok h /\ out !! k = Some h).
Proof.
  intros Hfile Hext Hlast Hall.
  destruct (load_modes_loop waveform extraction grp modes
              {| output := ∅; mode_array := None |} Hext Hall)
    as (st' & Hrun & Hin & Hout & Hl).
  rewrite Hlast in Hl. destruct Hl as (arr & Hds & Harr).
  destruct (Hall lm) as (arr' & Hds' & Hc).
  { apply last_Some in Hlast as [l' ->]. apply elem_of_app. right. left. }
  assert (arr' = arr) as -> by congruence.
  exists (output st'), arr. split; [assumption|]. split; [|split].
  - unfold load_sxs_waveform, deepdish_io_load. rewrite Hfile. cbn [bind].
    rewrite Hrun. cbn [bind]. rewrite Harr.
    unfold ndarray_column. repeat (case_decide; try lia). reflexivity.
  - intros k. rewrite elem_of_dom. split.
    + intros Hsome. destruct (decide (k ∈ modes)) as [|Hnot]; [assumption|].
      rewrite Hout in Hsome by assumption. simpl in Hsome.
      rewrite lookup_empty in Hsome. now destruct Hsome.
    + intros Hk. destruct (Hin k Hk) as (? & h & _ & _ & ->). eauto.
  - exact Hin.
Qed.

Lemma sample_group_has (k : Z * Z) :
  k ∈ default_modes ->
  exists arr, full_group sample_table !! dataset_name k.1 k.2 = Some arr /\
              (3 <= ncols arr)%nat.
Proof.
  intros Hk. exists sample_table.
  split; [now apply full_group_lookup_mode | simpl; lia].
Qed.

Lemma load_explicit_modes_result_witness :
  exists (out : gmap (Z * Z) (list complex)) (arr : ndarray),
    full_group sample_table !! dataset_name (3, -1).1 (3, -1).2 = Some arr /\
    load_sxs_waveform sample_disk "wave.h5" (Some [(2, 2); (3, -1)])
      "OutermostExtraction.dir"
      = Ok (out, (fun row => nth 0 row 0%R) <$> rows arr) /\
    (forall k, k ∈ dom out <-> k ∈ [(2, 2); (3, -1)]) /\
    (forall k, k ∈ [(2, 2); (3, -1)] ->
       exists a h, full_group sample_table !! dataset_name k.1 k.2 = Some a /\
                   mode_series a = Ok h /\ out !! k = Some h).
Proof.
  apply (load_explicit_modes_result sample_disk "wave.h5"
           "OutermostExtraction.dir"
           {[ "OutermostExtraction.dir" := full_group sample_table ]}
           (full_group sample_table) [(2, 2); (3, -1)] (3, -1)).
  - reflexivity.
  - reflexivity.
  - reflexivity.
  - intros k Hk. apply sample_group_has.
    apply elem_of_cons in Hk as [->|Hk]; [apply elem_of_default_modes; lia|].
    apply elem_of_cons in Hk as [->|Hk]; [apply elem_of_default_modes; lia|].
    now apply elem_of_nil in Hk.
Defined.

(** X20: when the extraction label is missing from the archive, the call
    raises [KeyError] for that label, with the default modes as well as with
    any non-empty explicit list. *)
Theorem load_missing_extraction (disk : gmap string archive)
    (file_name extraction : string) (waveform : archive)
    (modes : option (list (Z * Z))) :
  disk !! file_name = Some waveform ->
  waveform !! extraction = None ->
  modes <> Some [] ->
  load_sxs_waveform disk file_name modes extraction
    = Raise (KeyError extraction).
Proof.
  intros Hfile Hext Hne.
  unfold load_sxs_waveform, deepdish_io_load. rewrite Hfile. cbn [bind].
  destruct modes as [[|m modes]|].
  - congruence.
  - cbn [for_each]. unfold load_mode at 1, dict_getitem at 1.
    rewrite Hext. reflexivity.
  - change (py_range 2 5) with [2; 3; 4]. cbn [for_each].
    change (py_range (- 2) (2 + 1)) with [-2; -1; 0; 1; 2]. cbn [for_each].
    unfold dict_getitem at 1. rewrite Hext. reflexivity.
Qed.

Lemma load_missing_extraction_witness :
  load_sxs_waveform sample_disk "wave.h5" None "Extrapolated_N2.dir"
    = Raise (KeyError "Extrapolated_N2.dir") /\
  load_sxs_waveform sample_disk "wave.h5" (Some [(2, 2)]) "Extrapolated_N2.dir"
    = Raise (KeyError "Extrapolated_N2.dir").
Proof.
  split.
  - apply (load_missing_extraction sample_disk "wave.h5" "Extrapolated_N2.dir"
             {[ "OutermostExtraction.dir" := full_group sample_table ]} None);
      [reflexivity | reflexivity | discriminate].
  - apply (load_missing_extraction sample_disk "wave.h5" "Extrapolated_N2.dir"
             {[ "OutermostExtraction.dir" := full_group sample_table ]}
             (Some [(2, 2)]));
      [reflexivity | reflexivity | discriminate].
Defined.

(** X21: the first requested mode whose dataset is missing makes the call
    raise [KeyError] for that dataset name; nothing is returned for the
    modes loaded before it. *)
Theorem load_missing_dataset (disk : gmap string archive)
    (file_name extraction : string) (waveform : archive) (grp : group)
    (before after : list (Z * Z)) (mode : Z * Z) :
  disk !! file_name = Some waveform ->
  waveform !! extraction = Some grp ->
  (forall k, k ∈ before ->
     exists arr, grp !! dataset_name k.1 k.2 = Some arr /\
                 (3 <= ncols arr)%nat) ->
  grp !! dataset_name mode.1 mode.2 = None ->
  load_sxs_waveform disk file_name (Some (before ++ mode :: after)) extraction
    = Raise (KeyError (dataset_name mode.1 mode.2)).
Proof.
  intros Hfile Hext Hall Hmiss.
  destruct (load_modes_loop waveform extraction grp before
              {| output := ∅; mode_array := None |} Hext Hall)
    as (st' & Hrun & _).
  unfold load_sxs_waveform, deepdish_io_load. rewrite Hfile. cbn [bind].
  rewrite for_each_app, Hrun. cbn [bind for_each].
  unfold load_mode at 1, dict_getitem. rewrite Hext. cbn [bind].
  rewrite Hmiss. reflexivity.
Qed.

Lemma load_missing_dataset_witness :
  load_sxs_waveform sample_disk "wave.h5" (Some ([(2, 2)] ++ (5, 0) :: [(2, 1)]))
    "OutermostExtraction.dir"
    = Raise (KeyError (dataset_name (5, 0).1 (5, 0).2)).
Proof.
  apply (load_missing_dataset sample_disk "wave.h5" "OutermostExtraction.dir"
           {[ "OutermostExtraction.dir" := full_group sample_table ]}
           (full_group sample_table) [(2, 2)] [(2, 1)] (5, 0)).
  - reflexivity.
  - reflexivity.
  - intros k Hk. apply sample_group_has.
    apply elem_of_cons in Hk as [->|Hk]; [apply elem_of_default_modes; lia|].
    now apply elem_of_nil in Hk.
  - vm_compute. reflexivity.
Defined.

(** X22: a dataset with fewer than three columns makes the call raise
    [IndexError] when the real or the imaginary column is read. *)
Theorem load_short_table (disk : gmap string archive)
    (file_name extraction : string) (waveform : archive) (grp : group)
    (before after : list (Z * Z)) (mode : Z * Z) (arr : ndarray) :
  disk !! file_name = Some waveform ->
  waveform !! extraction = Some grp ->
  (forall k, k ∈ before ->
     exists arr, grp !! dataset_name k.1 k.2 = Some arr /\
                 (3 <= ncols arr)%nat) ->
  grp !! dataset_name mode.1 mode.2 = Some arr ->
  (ncols arr < 3)%nat ->
  load_sxs_waveform disk file_name (Some (before ++ mode :: after)) extraction
    = Raise IndexError.
Proof.
  intros Hfile Hext Hall Hds Hc.
  destruct (load_modes_loop waveform extraction grp before
              {| output := ∅; mode_array := None |} Hext Hall)
    as (st' & Hrun & _).
  unfold load_sxs_waveform, deepdish_io_load. rewrite Hfile. cbn [bind].
  rewrite for_each_app, Hrun. cbn [bind for_each].
  unfold load_mode at 1, dict_getitem. rewrite Hext. cbn [bind].
  rewrite Hds. cbn [bind].
  assert (Hser : mode_series arr = Raise IndexError).
  { unfold mode_series, ndarray_column.
    repeat (case_decide; try lia); reflexivity. }
  rewrite Hser. reflexivity.
Qed.

Lemma load_short_table_witness :
  load_sxs_waveform short_disk "wave.h5" (Some ([] ++ (2, 2) :: []))
    "OutermostExtraction.dir" = Raise IndexError.
Proof.
  apply (load_short_table short_disk "wave.h5" "OutermostExtraction.dir"
           {[ "OutermostExtraction.dir" := {[ "Y_l2_m2.dat" := short_table ]} ]}
           {[ "Y_l2_m2.dat" := short_table ]} [] [] (2, 2) short_table).
  - reflexivity.
  - reflexivity.
  - intros k Hk. now apply elem_of_nil in Hk.
  - vm_compute. reflexivity.
  - simpl. lia.
Defined.

(** X23: the complex series of a table with three columns has one sample
    per row, whose real part is the second column and whose imaginary part
    is the third column of that row. *)
Theorem mode_series_samples (arr : ndarray) :
  (3 <= ncols arr)%nat ->
  exists h : list complex,
    mode_series arr = Ok h /\
    length h = length (rows arr) /\
    forall (i : nat) (row : list R),
      rows arr !! i = Some row ->
      h !! i = Some (nth 1 row 0%R, nth 2 row 0%R).
Proof.
  intros Hc. eexists. split; [now apply mode_series_ok|]. split.
  - rewrite length_zip_with, !length_fmap. lia.
  - intros i row Hrow.
    rewrite lookup_zip_with, !list_lookup_fmap, Hrow. simpl.
    unfold Cadd, Cmul, Cj, C_of_R. simpl. do 2 f_equal; lra.
Qed.

Lemma mode_series_samples_witness :
  exists h : list complex,
    mode_series sample_table = Ok h /\
    length h = length (rows sample_table) /\
    forall (i : nat) (row : list R),
      rows sample_table !! i = Some row ->
      h !! i = Some (nth 1 row 0%R, nth 2 row 0%R).
Proof. apply (mode_series_samples sample_table). simpl. lia. Defined.

(** ** [combine_modes] *)

Lemma sum_from_cons (acc x : npvalue) (xs : list npvalue) :
  sum_from acc (x :: xs) = (acc' <- np_add acc x ;; sum_from acc' xs).
Proof. reflexivity. Qed.

Lemma np_add_same_length (a b : list complex) :
  length a = length b ->
  np_add (Array a) (Array b) = Ok (Array (zip_with Cadd a b)).
Proof. intros Hl. unfold np_add. case_decide; [reflexivity | contradiction]. Qed.

(** Adding arrays of one common length [n] never raises and gives an array
    of that length. *)
Lemma sum_from_same_length (n : nat) (ls : list (list complex))
    (acc : npvalue) :
  Forall (fun a => length a = n) ls ->
  (forall a, acc = Array a -> length a = n) ->
  exists r : npvalue,
    sum_from acc (Array <$> ls) = Ok r /\
    (ls <> [] \/ (exists a, acc = Array a) ->
     exists a, r = Array a /\ length a = n).
Proof.
  intros Hall. revert acc. induction Hall as [|b ls Hb _ IH]; intros acc Hacc.
  - exists acc. split; [reflexivity|].
    intros [Hne|[a ->]]; [congruence|]. exists a. split; [reflexivity|].
    now apply Hacc.
  - rewrite fmap_cons, sum_from_cons.
    assert (Hstep : exists a, np_add acc (Array b) = Ok (Array a)
                              /\ length a = n).
    { destruct acc as [c|a].
      - eexists. split; [reflexivity|]. now rewrite length_fmap.
      - specialize (Hacc a eq_refl).
        rewrite np_add_same_length by congruence.
        eexists. split; [reflexivity|]. rewrite length_zip_with. lia. }
    destruct Hstep as (a & -> & Ha). cbn [bind].
    destruct (IH (Array a)) as (r & Hr & Hlen).
    { intros a' [= <-]. exact Ha. }
    exists r. split; [exact Hr|]. intros _. apply Hlen. right. eauto.
Qed.

(** Once the running sum is an array whose length is not one, a later array
    of another length (not one either) makes the addition raise. *)
Lemma sum_from_mismatch_array (ls : list (list complex)) (a b : list complex) :
  length a <> 1%nat ->
  b ∈ ls -> length b <> 1%nat -> length b <> length a ->
  sum_from (Array a) (Array <$> ls) = Raise ValueError.
Proof.
  intros Ha Hin Hb1 Hba. revert a Ha Hba.
  induction ls as [|x ls IH]; intros a Ha Hba;
    [now apply elem_of_nil in Hin|].
  rewrite fmap_cons, sum_from_cons.
  destruct (decide (length a = length x)) as [Heq|Hne].
  - rewrite np_add_same_length by assumption. cbn [bind].
    apply elem_of_cons in Hin as [->|Hin]; [congruence|].
    apply IH; [assumption| |]; rewrite length_zip_with; lia.
  - unfold np_add. case_decide; [contradiction|].
    destruct a as [|a0 [|a1 a]]; [|simpl in Ha; lia|].
    + destruct x as [|x0 [|x1 x]]; [simpl in Hne; lia| |reflexivity].
      cbn [bind]. apply elem_of_cons in Hin as [->|Hin];
        [simpl in Hb1; lia|].
      apply IH; simpl; assumption || lia.
    + destruct x as [|x0 [|x1 x]]; [reflexivity| |reflexivity].
      cbn [bind]. apply elem_of_cons in Hin as [->|Hin];
        [simpl in Hb1; lia|].
      apply IH; [assumption| |]; rewrite length_fmap; assumption.
Qed.

Lemma sum_from_mismatch (ls : list (list complex)) (acc : npvalue)
    (b1 b2 : list complex) :
  (forall a, acc = Array a -> length a = 1%nat) ->
  b1 ∈ ls -> b2 ∈ ls ->
  length b1 <> 1%nat -> length b2 <> 1%nat -> length b1 <> length b2 ->
  sum_from acc (Array <$> ls) = Raise ValueError.
Proof.
  intros Hacc H1 H2 Hl1 Hl2 Hne. revert acc Hacc.
  induction ls as [|x ls IH]; intros acc Hacc;
    [now apply elem_of_nil in H1|].
  rewrite fmap_cons, sum_from_cons.
  assert (Hstep : exists a, np_add acc (Array x) = Ok (Array a)
                            /\ length a = length x).
  { destruct acc as [c|a].
    - eexists. split; [reflexivity|]. now rewrite length_fmap.
    - specialize (Hacc a eq_refl).
      destruct a as [|a0 [|a1 a]]; try (simpl in Hacc; lia).
      unfold np_add. case_decide as Hd.
      + eexists. split; [reflexivity|]. rewrite length_zip_with, <- Hd.
        reflexivity.
      + eexists. split; [reflexivity|]. now rewrite length_fmap. }
  destruct Hstep as (a & -> & Ha). cbn [bind].
  destruct (decide (length x = 1%nat)) as [Hx1|Hx1].
  - apply elem_of_cons in H1 as [->|H1]; [contradiction|].
    apply elem_of_cons in H2 as [->|H2]; [contradiction|].
    apply IH; try assumption. intros a' [= <-]. congruence.
  - destruct (decide (length b1 = length x)) as [Hb1|Hb1].
    + apply (sum_from_mismatch_array ls a b2); try lia.
      apply elem_of_cons in H2 as [->|H2]; [lia | assumption].
    + apply (sum_from_mismatch_array ls a b1); try lia.
      apply elem_of_cons in H1 as [->|H1]; [lia | assumption].
Qed.

Section combine_modes_properties.
Variable sYlm : Z -> Z -> Z -> R -> R -> complex.
Variables inc phase : R.

Lemma mode_terms_arrays (h_lm : gmap (Z * Z) (list complex)) :
  mode_term sYlm inc phase <$> map_to_list h_lm
    = Array <$> mode_arrays sYlm inc phase h_lm.
Proof. unfold mode_arrays. now rewrite <- list_fmap_compose. Qed.

Lemma elem_of_mode_arrays (h_lm : gmap (Z * Z) (list complex))
    (k : Z * Z) (h : list complex) :
  h_lm !! k = Some h ->
  exists a, a ∈ mode_arrays sYlm inc phase h_lm /\ length a = length h.
Proof.
  intros Hk. eexists. split.
  - unfold mode_arrays. apply list_elem_of_fmap. exists (k, h).
    split; [reflexivity|]. now apply elem_of_map_to_list.
  - simpl. apply length_fmap.
Qed.

Lemma combine_modes_sum (h_lm : gmap (Z * Z) (list complex)) :
  combine_modes sYlm h_lm inc phase =
    (total <- sum_from (Scalar (C_of_R 0))
                (Array <$> mode_arrays sYlm inc phase h_lm) ;;
     Ok {| plus := np_real total; cross := np_neg (np_imag total) |}).
Proof. unfold combine_modes, py_sum. now rewrite mode_terms_arrays. Qed.

(** X24: with a single mode [(l, m)] the plus polarisation is the real
    part and the cross polarisation is minus the imaginary part of the
    mode series times [sYlm(-2, l, m, inc, phase)], sample by sample. *)
Theorem combine_modes_single_mode (l m : Z) (h : list complex) :
  combine_modes sYlm {[ (l, m) := h ]} inc phase =
    Ok {| plus :=
            RArray ((fun c => (Cmul c (sYlm (-2) l m inc phase)).1) <$> h);
          cross :=
            RArray ((fun c => (- (Cmul c (sYlm (-2) l m inc phase)).2)%R)
                      <$> h) |}.
Proof.
  unfold combine_modes, py_sum. rewrite map_to_list_singleton.
  cbn [fmap list_fmap for_each mode_term np_add bind fst snd].
  cbn [np_real np_imag np_neg]. rewrite <- !list_fmap_compose.
  f_equal. f_equal; f_equal; apply list_fmap_ext;
    intros _ c _; unfold Cadd, C_of_R; simpl; lra.
Qed.

(** X25: when the mapping is not empty and all mode series have one
    common length, [combine_modes] does not raise and both polarisations
    are arrays of that length. *)
Theorem combine_modes_common_length (h_lm : gmap (Z * Z) (list complex))
    (n : nat) :
  h_lm <> ∅ ->
  (forall k h, h_lm !! k = Some h -> length h = n) ->
  exists p c : list R,
    combine_modes sYlm h_lm inc phase
      = Ok {| plus := RArray p; cross := RArray c |} /\
    length p = n /\ length c = n.
Proof.
  intros Hne Hall. rewrite combine_modes_sum.
  destruct (sum_from_same_length n (mode_arrays sYlm inc phase h_lm)
              (Scalar (C_of_R 0))) as (r & Hr & Hlen).
  - unfold mode_arrays. apply Forall_fmap, Forall_forall.
    intros [k h] Hin. simpl. rewrite length_fmap.
    apply (Hall k), elem_of_map_to_list, Hin.
  - intros a Ha. discriminate Ha.
  - destruct Hlen as (a & -> & Ha).
    { left. unfold mode_arrays. intros Hnil.
      apply fmap_nil_inv, map_to_list_empty_iff in Hnil. contradiction. }
    rewrite Hr. cbn [bind np_real np_imag np_neg].
    eexists _, _. split; [reflexivity|].
    now rewrite !length_fmap.
Qed.

(** X26: two mode series of different lengths, neither of length one,
    make [combine_modes] raise [ValueError]: the lengths are not checked
    before the sum is formed. *)
Theorem combine_modes_length_mismatch (h_lm : gmap (Z * Z) (list complex))
    (k1 k2 : Z * Z) (h1 h2 : list complex) :
  h_lm !! k1 = Some h1 -> h_lm !! k2 = Some h2 ->
  length h1 <> 1%nat -> length h2 <> 1%nat -> length h1 <> length h2 ->
  combine_modes sYlm h_lm inc phase = Raise ValueError.
Proof.
  intros Hk1 Hk2 Hl1 Hl2 Hne. rewrite combine_modes_sum.
  destruct (elem_of_mode_arrays h_lm k1 h1 Hk1) as (b1 & Hb1 & Hlb1).
  destruct (elem_of_mode_arrays h_lm k2 h2 Hk2) as (b2 & Hb2 & Hlb2).
  rewrite (sum_from_mismatch _ _ b1 b2); try assumption; try lia.
  - reflexivity.
  - intros a Ha. discriminate Ha.
Qed.
End combine_modes_properties.

Lemma combine_modes_common_length_witness :
  exists p c : list R,
    combine_modes unit_harmonic
      {[ (2, 2) := [(1, 0); (0, 1)]%R; (2, -2) := [(1, 0); (0, -1)]%R ]} 0 0
      = Ok {| plus := RArray p; cross := RArray c |} /\
    length p = 2%nat /\ length c = 2%nat.
Proof.
  apply (combine_modes_common_length unit_harmonic 0 0).
  - apply insert_non_empty.
  - intros k h Hk.
    apply lookup_insert_Some in Hk as [[_ <-]|[_ Hk]]; [reflexivity|].
    apply lookup_singleton_Some in Hk as [_ <-]. reflexivity.
Defined.

Lemma combine_modes_length_mismatch_witness :
  combine_modes unit_harmonic
    {[ (2, 2) := [(1, 0); (0, 1)]%R;
       (2, -2) := [(1, 0); (0, -1); (2, 0)]%R ]} 0 0
    = Raise ValueError.
Proof.
  apply (combine_modes_length_mismatch unit_harmonic 0 0 _ (2, 2) (2, -2)
           [(1, 0); (0, 1)]%R [(1, 0); (0, -1); (2, 0)]%R).
  - apply lookup_insert_eq.
  - rewrite lookup_insert_ne by discriminate. apply lookup_singleton_eq.
  - simpl. lia.
  - simpl. lia.
  - simpl. lia.
Defined.

(** ** [get_version_information] *)

Lemma rstrip_with_empty_iff (strip : ascii -> bool) (s : string) :
  rstrip_with strip s = EmptyString <-> string_forallb strip s = true.
Proof.
  induction s as [|c s IH]; [easy|]. simpl.
  destruct (rstrip_with strip s) eqn:Hr.
  - destruct (strip c); simpl.
    + split; [intros _; now apply IH | reflexivity].
    + split; [discriminate | discriminate].
  - split; [discriminate|]. intros [_ Hs]%andb_prop.
    apply IH in Hs. discriminate Hs.
Qed.

Lemma rstrip_with_split (strip : ascii -> bool) (s : string) :
  exists ws : string,
    s = rstrip_with strip s +:+ ws /\ string_forallb strip ws = true.
Proof.
  induction s as [|c s (ws & Hs & Hws)].
  - exists EmptyString. split; reflexivity.
  - simpl. destruct (rstrip_with strip s) as [|a s0] eqn:Hr.
    + destruct (strip c) eqn:Hc.
      * exists (String c s). split; [reflexivity|]. simpl. rewrite Hc. simpl.
        now apply rstrip_with_empty_iff.
      * exists ws. split; [|assumption].
        change (String c s = String c ws). now rewrite Hs.
    + exists ws. split; [|assumption].
      change (String c s = String c (String a s0 +:+ ws)). now rewrite <- Hs.
Qed.

Lemma rstrip_with_last (strip : ascii -> bool) (s : string) (c : ascii) :
  last_char (rstrip_with strip s) = Some c -> strip c = false.
Proof.
  induction s as [|a s IH]; [discriminate|]. simpl.
  destruct (rstrip_with strip s) as [|b r] eqn:Hr.
  - destruct (strip a) eqn:Ha; [discriminate|]. simpl. now intros [= <-].
  - intros Hl. apply IH. exact Hl.
Qed.

(** X27: the version string returned is the line read with its trailing
    whitespace removed and nothing else: the line is the version followed by
    whitespace only, and the version does not end in whitespace.  The line
    is any sequence of characters below U+0100, and whitespace is what
    [str.isspace] accepts there, U+0085 and U+00A0 included. *)
Theorem version_has_no_trailing_whitespace (module_file : string)
    (io : string -> file_behaviour) (line : string) :
  io (os_path_join (os_path_dirname module_file) ".version")
    = ReadlineReturns line ->
  exists version ws : string,
    get_version_information module_file io
      = {| printed := []; returned := Ok (Some version) |} /\
    line = version +:+ ws /\
    string_forallb py_isspace ws = true /\
    (forall c, last_char version = Some c -> py_isspace c = false).
Proof.
  intros Hio. destruct (rstrip_with_split py_isspace line) as (ws & Hs & Hws).
  exists (rstrip line), ws. split; [|split; [|split]].
  - unfold get_version_information. now rewrite Hio.
  - exact Hs.
  - exact Hws.
  - intros c. apply rstrip_with_last.
Qed.

Lemma version_has_no_trailing_whitespace_witness :
  exists version ws : string,
    get_version_information "/pkg/gwmemory/utils.py"
      (fun _ => ReadlineReturns "0.1.0 ")
      = {| printed := []; returned := Ok (Some version) |} /\
    "0.1.0 " = version +:+ ws /\
    string_forallb py_isspace ws = true /\
    (forall c, last_char version = Some c -> py_isspace c = false).
Proof.
  apply (version_has_no_trailing_whitespace "/pkg/gwmemory/utils.py"
           (fun _ => ReadlineReturns "0.1.0 ") "0.1.0 ").
  reflexivity.
Defined.

(** X28: an exception that is not an [EnvironmentError] (a decoding error
    while reading the line, say) is not caught: it propagates to the caller
    and nothing is printed. *)
Theorem version_reader_propagates_other_errors (module_file : string)
    (io : string -> file_behaviour) (e : exn) :
  is_EnvironmentError e = false ->
  io (os_path_join (os_path_dirname module_file) ".version") = OpenRaises e \/
  io (os_path_join (os_path_dirname module_file) ".version")
    = ReadlineRaises e ->
  get_version_information module_file io
    = {| printed := []; returned := Raise e |}.
Proof.
  intros He [Hio|Hio]; unfold get_version_information;
    rewrite Hio, He; reflexivity.
Qed.

Lemma version_reader_propagates_other_errors_witness :
  get_version_information "/pkg/gwmemory/utils.py"
    (fun _ => ReadlineRaises UnicodeDecodeError)
    = {| printed := []; returned := Raise UnicodeDecodeError |}.
Proof.
  apply (version_reader_propagates_other_errors "/pkg/gwmemory/utils.py"
           (fun _ => ReadlineRaises UnicodeDecodeError) UnicodeDecodeError).
  - reflexivity.
  - right. reflexivity.
Defined.

Lemma append_String (c : ascii) (s t : string) :
  String c s +:+ t = String c (s +:+ t).
Proof. reflexivity. Qed.

Lemma append_Empty (t : string) : EmptyString +:+ t = t.
Proof. reflexivity. Qed.

Lemma up_to_last_sep_no_sep (p : string) :
  has_sep p = false -> up_to_last_sep p = EmptyString.
Proof. destruct p as [|c p]; [reflexivity|]. intros Hp. simpl in *. now rewrite Hp. Qed.

Lemma has_sep_append_sep (d rest : string) :
  has_sep (d +:+ String "/" rest) = true.
Proof.
  induction d as [|c d IH]; [reflexivity|].
  rewrite append_String. simpl. rewrite IH. apply orb_true_r.
Qed.

Lemma up_to_last_sep_append (d name : string) :
  has_sep name = false ->
  up_to_last_sep (d +:+ String "/" name) = d +:+ "/".
Proof.
  intros Hn. induction d as [|c d IH].
  - rewrite !append_Empty. simpl. now rewrite up_to_last_sep_no_sep.
  - rewrite !append_String. cbn [up_to_last_sep].
    cbn [has_sep]. rewrite has_sep_append_sep, orb_true_r. now rewrite IH.
Qed.

Lemma rstrip_with_keep (strip : ascii -> bool) (s : string) (c : ascii) :
  last_char s = Some c -> strip c = false -> rstrip_with strip s = s.
Proof.
  intros Hl Hc. induction s as [|a s IH]; [reflexivity|].
  destruct s as [|b s].
  - simpl in *. injection Hl as ->. now rewrite Hc.
  - specialize (IH Hl).
    change (rstrip_with strip (String a (String b s)))
      with (match rstrip_with strip (String b s) with
            | EmptyString => if strip a then EmptyString else String a EmptyString
            | r => String a r
            end).
    now rewrite IH.
Qed.

Lemma rstrip_with_drop (strip : ascii -> bool) (s : string) (c : ascii) :
  strip c = true ->
  rstrip_with strip (s +:+ String c EmptyString) = rstrip_with strip s.
Proof.
  intros Hc. induction s as [|a s IH].
  - rewrite append_Empty. simpl. now rewrite Hc.
  - rewrite append_String. simpl. now rewrite IH.
Qed.

Lemma all_sep_append (d t : string) (c : ascii) :
  last_char d = Some c -> is_sep c = false -> all_sep (d +:+ t) = false.
Proof.
  intros Hl Hc. induction d as [|a d IH]; [discriminate|].
  rewrite append_String. simpl. destruct d as [|b d].
  - simpl in Hl. injection Hl as ->. now rewrite Hc.
  - rewrite (IH Hl). apply andb_false_r.
Qed.

Lemma ends_with_sep_last (d : string) (c : ascii) :
  last_char d = Some c -> ends_with_sep d = is_sep c.
Proof.
  induction d as [|a d IH]; [discriminate|]. destruct d as [|b d].
  - simpl. now intros [= ->].
  - intros Hl. exact (IH Hl).
Qed.

Lemma version_path_in_directory (dir name : string) (c : ascii) :
  last_char dir = Some c -> is_sep c = false ->
  has_sep name = false ->
  os_path_join (os_path_dirname (dir +:+ String "/" name)) ".version"
    = dir +:+ "/.version".
Proof.
  intros Hl Hc Hn.
  assert (Hdir : os_path_dirname (dir +:+ String "/" name) = dir).
  { unfold os_path_dirname. rewrite up_to_last_sep_append by assumption.
    rewrite (all_sep_append dir "/" c) by assumption.
    assert (Hne : dir +:+ "/" <> EmptyString) by (destruct dir; discriminate).
    rewrite bool_decide_eq_false_2 by assumption. simpl.
    rewrite rstrip_with_drop by reflexivity.
    now apply (rstrip_with_keep _ _ c). }
  rewrite Hdir. unfold os_path_join.
  change (is_sep "."%char) with false. cbn iota.
  rewrite (ends_with_sep_last dir c Hl), Hc.
  assert (Hne : dir <> EmptyString) by (destruct dir; discriminate).
  rewrite bool_decide_eq_false_2 by assumption. simpl.
  reflexivity.
Qed.

(** X29: the file consulted is [.version] in the directory of the module:
    for a module at [dir/name] the line of [dir/.version] is what is
    returned, and for a bare file name it is the line of [.version] in the
    current directory. *)
Theorem version_file_next_to_module (dir name : string) (c : ascii)
    (io : string -> file_behaviour) (line : string) :
  last_char dir = Some c -> is_sep c = false ->
  has_sep name = false ->
  (io (dir +:+ "/.version") = ReadlineReturns line ->
   get_version_information (dir +:+ String "/" name) io
     = {| printed := []; returned := Ok (Some (rstrip line)) |}) /\
  (io ".version" = ReadlineReturns line ->
   get_version_information name io
     = {| printed := []; returned := Ok (Some (rstrip line)) |}).
Proof.
  intros Hl Hc Hn. split; intros Hio.
  - unfold get_version_information.
    rewrite (version_path_in_directory dir name c) by assumption.
    now rewrite Hio.
  - assert (Hdir : os_path_dirname name = EmptyString).
    { unfold os_path_dirname. now rewrite up_to_last_sep_no_sep. }
    unfold get_version_information. rewrite Hdir.
    change (os_path_join EmptyString ".version") with ".version".
    now rewrite Hio.
Qed.

Lemma version_file_next_to_module_witness :
  get_version_information ("/pkg/gwmemory" +:+ String "/" "utils.py")
    (fun path => if decide (path = "/pkg/gwmemory/.version")
                 then ReadlineReturns "0.1.0"
                 else OpenRaises FileNotFoundError)
    = {| printed := []; returned := Ok (Some (rstrip "0.1.0")) |}.
Proof.
  apply (proj1 (version_file_next_to_module "/pkg/gwmemory" "utils.py" "y"
                  (fun path => if decide (path = "/pkg/gwmemory/.version")
                               then ReadlineReturns "0.1.0"
                               else OpenRaises FileNotFoundError)
                  "0.1.0" eq_refl eq_refl eq_refl)).
  reflexivity.
Defined.
